(** * github-backend: the JSON collection store and its transaction coordinator

    A shallow embedding of [src/services/DatabaseService.js] and
    [src/services/TransactionService.js].

    - A record is a JavaScript object holding JSON values; it is a finite map
      from field names to values.
    - The database directory is a set of collection files, a metadata file
      and a git repository.  Git itself is an external tool: it is modelled
      by what the services ask of it (capture the whole directory as a
      commit, name the current commit, reset the directory to a commit).
    - Everything a method reads from its environment (clock, random digits,
      whether a git command fails) is an explicit argument of the method.
    - A method that can throw returns a [Result] next to the state it leaves
      behind, because an exception does not undo what was written before
      it. *)

From Stdlib Require Import ZArith List QArith Ascii.
From stdpp Require Import gmap strings list fin_maps pretty.

Local Close Scope Q_scope.
Local Open Scope string_scope.
Local Open Scope list_scope.

(** ** JSON values *)

#[warnings="-register-all"]
Inductive Value : Type :=
  | VNull
  | VBool (b : bool)
  | VNum (n : Z)
  | VStr (s : string)
  | VArr (items : list Value)
  | VObj (props : list (string * Value)).

(** Equality of values is decidable; the recursion goes through the lists
    of an array's items and of an object's properties. *)
#[global] Instance Value_eq_dec : EqDecision Value.
Proof.
  refine (fix go (x y : Value) {struct x} : Decision (x = y) :=
    match x, y with
    | VNull, VNull => left _
    | VBool a, VBool b => cast_if (decide (a = b))
    | VNum a, VNum b => cast_if (decide (a = b))
    | VStr a, VStr b => cast_if (decide (a = b))
    | VArr xs, VArr ys => cast_if (@list_eq_dec _ go xs ys)
    | VObj xs, VObj ys => cast_if (@list_eq_dec _ (@prod_eq_dec _ _ _ go) xs ys)
    | _, _ => right _
    end); clear go; congruence.
Defined.

(** A record is an object: field name to value.  Reading a field that is
    not there gives JavaScript's [undefined], here [None]. *)
Abbreviation Record := (gmap string Value).

(** JavaScript truthiness of [x] in [x || y], on a field that may be absent. *)
Definition truthy (v : option Value) : bool :=
  match v with
  | None => false
  | Some VNull => false
  | Some (VBool b) => b
  | Some (VNum n) => negb (bool_decide (n = 0%Z))
  | Some (VStr s) => negb (bool_decide (s = EmptyString))
  | Some (VArr _) => true
  | Some (VObj _) => true
  end.

(** [a === b] between a field of a record freshly parsed from its file and
    a value held by the caller: primitives compare by value, arrays and
    objects by reference, and a parsed array or object is never the
    caller's own. *)
Definition strict_equal (a b : option Value) : bool :=
  match a, b with
  | None, None => true
  | Some VNull, Some VNull => true
  | Some (VBool x), Some (VBool y) => bool_decide (x = y)
  | Some (VNum x), Some (VNum y) => bool_decide (x = y)
  | Some (VStr x), Some (VStr y) => bool_decide (x = y)
  | _, _ => false
  end.

Definition primitive (v : Value) : bool :=
  match v with
  | VArr _ | VObj _ => false
  | _ => true
  end.

(** ** The database directory *)

Record CollectionMeta : Type := {
  recordCount : nat;
  cm_lastModified : string
}.

Record Metadata : Type := {
  version : string;
  created : string;
  lastModified : string;
  totalRecords : nat;
  collections : gmap string CollectionMeta
}.

(** What git captures: one file per collection under [data/], and
    [metadata.json] ([None] while it is missing or unreadable). *)
Record Tree : Type := {
  files : gmap string (list Record);
  metadata : option Metadata
}.

(** The text given to [git commit -m]; the interpolated parts are kept,
    the wording around them is not. *)
Inductive Message : Type :=
  | InitialDatabaseSetup
  | CreateRecordIn (id : Value) (collection : string)
  | UpdateRecordIn (id : Value) (collection : string)
  | DeleteRecordFrom (id : Value) (collection : string)
  | TransactionCommitted (transactionId : string) (operationCount : nat).

Record Commit : Type := {
  c_tree : Tree;
  c_message : Message
}.

(** A commit hash names a commit together with its ancestry, so a hash is
    modelled by the history it names, newest commit first.  [HEAD] is the
    history of the checked-out commit ([[]] before the first commit), and
    [objects] holds every hash the repository has ever produced: [git reset]
    knows no other. *)
Abbreviation Hash := (list Commit).

Record Store : Type := {
  worktree : Tree;
  HEAD : Hash;
  objects : list Hash
}.

#[global] Instance CollectionMeta_eq_dec : EqDecision CollectionMeta.
Proof. solve_decision. Defined.
#[global] Instance Metadata_eq_dec : EqDecision Metadata.
Proof. solve_decision. Defined.
#[global] Instance Tree_eq_dec : EqDecision Tree.
Proof. solve_decision. Defined.
#[global] Instance Message_eq_dec : EqDecision Message.
Proof. solve_decision. Defined.
#[global] Instance Commit_eq_dec : EqDecision Commit.
Proof. solve_decision. Defined.

(** ** Errors and results *)

Inductive TxStatus : Type := Active | Committed | RolledBack.

#[global] Instance TxStatus_eq_dec : EqDecision TxStatus.
Proof. solve_decision. Defined.

Inductive Error : Type :=
  | RecordNotFound (id : Value) (collection : string)
  | GitFailure (detail : string)
  | TransactionAlreadyActive (transactionId : string)
  | TransactionNotFound (transactionId : string)
  | TransactionNotActive (transactionId : string) (status : TxStatus)
  | UnsupportedOperation (operation : string)
  | BadArguments (operation : string).

Inductive Result (A : Type) : Type :=
  | Ok (a : A)
  | Err (e : Error).
Arguments Ok {A} a.
Arguments Err {A} e.

(** ** DatabaseService *)

(** What one call of a store method reads from outside: [Date.now()] and the
    base-36 digits of [Math.random()] for [generateId], the ISO rendering of
    the clock for the record's timestamps and for the two stamps of
    [updateMetadata], and the failure (if any) of the git commands run by
    [commitChanges] for a reason other than an unchanged tree. *)
Record StoreEnv : Type := {
  clock_ms : Z;
  random_digits : string;
  iso_now : string;
  meta_stamp : string;
  coll_stamp : string;
  git_fault : option string
}.

(** A collection is read by its name, and two names are two files.  That is
    so for plain file names; a name with a path separator is a path, which
    may lead out of the data directory or to the file of another name. *)
Definition getCollection (st : Store) (collection : string) : list Record :=
  default [] (files (worktree st) !! collection).

Definition has_id (id : Value) (record : Record) : bool :=
  strict_equal (record !! "id") (Some id).

Definition getRecord (st : Store) (collection : string) (id : Value) : option Record :=
  List.find (has_id id) (getCollection st collection).

Fixpoint findIndex {A : Type} (p : A → bool) (l : list A) : option nat :=
  match l with
  | [] => None
  | x :: l' => if p x then Some 0%nat else S <$> findIndex p l'
  end.

Definition generateId (env : StoreEnv) : string :=
  pretty (clock_ms env) +:+ "-" +:+ random_digits env.

(** Assigning to the key [__proto__] of a JavaScript object sets its
    prototype and adds no entry, so a collection of that name never shows up
    in [metadata.collections]. *)
Definition updateMetadata (st : Store) (collection : string) (count : nat)
    (env : StoreEnv) : Store :=
  match metadata (worktree st) with
  | None => st
  | Some m =>
      let cols :=
        if bool_decide (collection = "__proto__") then collections m
        else <[collection := {| recordCount := count;
                                cm_lastModified := coll_stamp env |}]>
               (collections m) in
      let m' := {| version := version m;
                   created := created m;
                   lastModified := meta_stamp env;
                   totalRecords :=
                     map_fold (λ _ col total, (total + recordCount col)%nat) 0%nat cols;
                   collections := cols |} in
      {| worktree := {| files := files (worktree st); metadata := Some m' |};
         HEAD := HEAD st;
         objects := objects st |}
  end.

(** Writing the file is taken to succeed.  It does while the data directory
    exists and the name holds no path separator; the statements below that
    need a [createRecord] to have written its file take its return as a
    hypothesis. *)
Definition saveCollection (st : Store) (collection : string)
    (records : list Record) (env : StoreEnv) : Store :=
  updateMetadata
    {| worktree := {| files := <[collection := records]> (files (worktree st));
                      metadata := metadata (worktree st) |};
       HEAD := HEAD st;
       objects := objects st |}
    collection (length records) env.

(** [git commit] refuses when the staged tree is the tree of [HEAD], or,
    before the first commit, when there is no file to stage. *)
Definition nothing_to_commit (st : Store) : bool :=
  match HEAD st with
  | c :: _ => bool_decide (c_tree c = worktree st)
  | [] => bool_decide (worktree st = {| files := ∅; metadata := None |})
  end.

Definition commitChanges (st : Store) (message : Message)
    (fault : option string) : Store :=
  match fault with
  | Some _ => st
  | None =>
      if nothing_to_commit st then st
      else
        let h := {| c_tree := worktree st; c_message := message |} :: HEAD st in
        {| worktree := worktree st; HEAD := h; objects := h :: objects st |}
  end.

Definition createRecord (st : Store) (collection : string) (data : Record)
    (env : StoreEnv) : Store * Result Record :=
  let records := getCollection st collection in
  let id := if truthy (data !! "id") then default VNull (data !! "id")
            else VStr (generateId env) in
  let timestamp := VStr (iso_now env) in
  let newRecord :=
    <["updatedAt" := timestamp]> (<["createdAt" := timestamp]> (<["id" := id]> data)) in
  let st1 := saveCollection st collection (records ++ [newRecord]) env in
  let st2 := commitChanges st1 (CreateRecordIn id collection) (git_fault env) in
  (st2, Ok newRecord).

Definition updateRecord (st : Store) (collection : string) (id : Value)
    (data : Record) (env : StoreEnv) : Store * Result Record :=
  let records := getCollection st collection in
  match findIndex (has_id id) records with
  | None => (st, Err (RecordNotFound id collection))
  | Some index =>
      let timestamp := VStr (iso_now env) in
      let old := default ∅ (records !! index) in
      let merged := <["updatedAt" := timestamp]> (<["id" := id]> (data ∪ old)) in
      let st1 := saveCollection st collection (<[index := merged]> records) env in
      let st2 := commitChanges st1 (UpdateRecordIn id collection) (git_fault env) in
      (st2, Ok merged)
  end.

Definition deleteRecord (st : Store) (collection : string) (id : Value)
    (env : StoreEnv) : Store * Result Record :=
  let records := getCollection st collection in
  match findIndex (has_id id) records with
  | None => (st, Err (RecordNotFound id collection))
  | Some index =>
      let deletedRecord := default ∅ (records !! index) in
      let st1 := saveCollection st collection (delete index records) env in
      let st2 := commitChanges st1 (DeleteRecordFrom id collection) (git_fault env) in
      (st2, Ok deletedRecord)
  end.

(** [git reset --hard]: fails on its own fault or on a hash the repository
    does not hold; otherwise [HEAD] moves to that commit and the directory
    becomes exactly the tree it captured.  That is what git does when every
    file of the directory is under version control, as [git add .] puts it;
    a file that a failed [git add] left out would stay in place.  The
    condition is that the directory was [clean] and that every later call
    [captures] it. *)
Definition revertToCommit (st : Store) (commitHash : Hash)
    (fault : option string) : Store * Result bool :=
  match fault with
  | Some detail => (st, Err (GitFailure detail))
  | None =>
      match commitHash with
      | c :: _ =>
          if bool_decide (commitHash ∈ objects st) then
            ({| worktree := c_tree c; HEAD := commitHash; objects := objects st |},
             Ok true)
          else (st, Err (GitFailure "unknown revision"))
      | [] => (st, Err (GitFailure "unknown revision"))
      end
  end.

(** [git log -<limit>]: the commits reachable from [HEAD], newest first. *)
Definition getHistory (st : Store) (limit : nat) : list Commit :=
  take limit (HEAD st).

(** The store as [initialize] leaves an empty directory: fresh metadata and
    the commit "Initial database setup". *)
Definition initialize (stamp : string) : Store :=
  let tree := {| files := ∅;
                 metadata := Some {| version := "1.0.0";
                                     created := stamp;
                                     lastModified := stamp;
                                     totalRecords := 0;
                                     collections := ∅ |} |} in
  let h := [{| c_tree := tree; c_message := InitialDatabaseSetup |}] in
  {| worktree := tree; HEAD := h; objects := [h] |}.

(** ** TransactionService *)

Inductive OpStatus : Type := Pending | Completed | Failed.

(** The rest arguments of [executeInTransaction], in the shapes its callers
    build them. *)
Inductive Args : Type :=
  | CreateArgs (collection : string) (data : Record)
  | UpdateArgs (collection : string) (id : Value) (data : Record)
  | DeleteArgs (collection : string) (id : Value).

Record OperationRecord : Type := {
  operation : string;
  args : Args;
  timestamp : Z;
  op_status : OpStatus;
  op_result : option Record;
  op_error : option Error
}.

Record Transaction : Type := {
  tx_id : string;
  startTime : Z;
  checkpointHash : Hash;
  operations : list OperationRecord;
  status : TxStatus;
  endTime : option Z;
  finalCommitHash : option Hash
}.

(** A JavaScript [Map] with string keys: entries in insertion order. *)
Abbreviation TxMap := (list (string * Transaction)).

Fixpoint Map_get (m : TxMap) (k : string) : option Transaction :=
  match m with
  | [] => None
  | (k', v) :: m' => if bool_decide (k' = k) then Some v else Map_get m' k
  end.

Definition Map_has (m : TxMap) (k : string) : bool :=
  match Map_get m k with Some _ => true | None => false end.

Fixpoint Map_set (m : TxMap) (k : string) (v : Transaction) : TxMap :=
  match m with
  | [] => [(k, v)]
  | (k', v') :: m' =>
      if bool_decide (k' = k) then (k, v) :: m' else (k', v') :: Map_set m' k v
  end.

Fixpoint Map_delete (m : TxMap) (k : string) : TxMap :=
  match m with
  | [] => []
  | (k', v') :: m' =>
      if bool_decide (k' = k) then m' else (k', v') :: Map_delete m' k
  end.

Definition Map_keys (m : TxMap) : list string := m.*1.

Record System : Type := {
  db : Store;
  activeTransactions : TxMap
}.

(** What one call of a coordinator method reads from outside: clock and
    random digits for [generateTransactionId], the clock at [new Date()] in
    the method body and in its catch block (milliseconds), the failure (if
    any) of [git rev-parse] and of [git reset], and the environment of the
    store method it forwards to. *)
Record TxEnv : Type := {
  id_clock_ms : Z;
  id_random : string;
  now_ms : Z;
  catch_now_ms : Z;
  rev_parse_fault : option string;
  reset_fault : option string;
  store_env : StoreEnv
}.

Definition getCurrentCommitHash (st : Store) (fault : option string) : Result Hash :=
  match fault with
  | Some detail => Err (GitFailure detail)
  | None =>
      match HEAD st with
      | [] => Err (GitFailure "unknown revision HEAD")
      | _ :: _ => Ok (HEAD st)
      end
  end.

Definition generateTransactionId (env : TxEnv) : string :=
  "tx_" +:+ pretty (id_clock_ms env) +:+ "_" +:+ id_random env.

(** [transactionId || this.generateTransactionId()]: an absent or empty id
    is replaced by a generated one. *)
Definition chosen_id (transactionId : option string) (env : TxEnv) : string :=
  match transactionId with
  | Some s => if bool_decide (s = EmptyString) then generateTransactionId env else s
  | None => generateTransactionId env
  end.

Definition beginTransaction (sys : System) (transactionId : option string)
    (env : TxEnv) : System * Result Transaction :=
  let id := chosen_id transactionId env in
  if Map_has (activeTransactions sys) id then
    (sys, Err (TransactionAlreadyActive id))
  else
    match getCurrentCommitHash (db sys) (rev_parse_fault env) with
    | Err e => (sys, Err e)
    | Ok checkpoint =>
        let transaction := {| tx_id := id;
                              startTime := now_ms env;
                              checkpointHash := checkpoint;
                              operations := [];
                              status := Active;
                              endTime := None;
                              finalCommitHash := None |} in
        ({| db := db sys;
            activeTransactions := Map_set (activeTransactions sys) id transaction |},
         Ok transaction)
    end.

(** The [switch] of [executeInTransaction].  A kind paired with the
    arguments of another kind is a call no route makes; where JavaScript
    would coerce the arguments or raise a type error, the model raises. *)
Definition dispatch (st : Store) (operation : string) (args : Args)
    (env : StoreEnv) : Store * Result Record :=
  if bool_decide (operation = "create") then
    match args with
    | CreateArgs collection data => createRecord st collection data env
    | _ => (st, Err (BadArguments operation))
    end
  else if bool_decide (operation = "update") then
    match args with
    | UpdateArgs collection id data => updateRecord st collection id data env
    | _ => (st, Err (BadArguments operation))
    end
  else if bool_decide (operation = "delete") then
    match args with
    | DeleteArgs collection id => deleteRecord st collection id env
    | _ => (st, Err (BadArguments operation))
    end
  else (st, Err (UnsupportedOperation operation)).

Definition push_operation (t : Transaction) (r : OperationRecord) : Transaction :=
  {| tx_id := tx_id t;
     startTime := startTime t;
     checkpointHash := checkpointHash t;
     operations := operations t ++ [r];
     status := status t;
     endTime := endTime t;
     finalCommitHash := finalCommitHash t |}.

Definition executeInTransaction (sys : System) (transactionId : string)
    (operation : string) (args : Args) (env : TxEnv) : System * Result Record :=
  match Map_get (activeTransactions sys) transactionId with
  | None => (sys, Err (TransactionNotFound transactionId))
  | Some transaction =>
      match status transaction with
      | Active =>
          let '(db', outcome) := dispatch (db sys) operation args (store_env env) in
          let operationRecord :=
            match outcome with
            | Ok result => {| operation := operation;
                              args := args;
                              timestamp := now_ms env;
                              op_status := Completed;
                              op_result := Some result;
                              op_error := None |}
            | Err error => {| operation := operation;
                              args := args;
                              timestamp := catch_now_ms env;
                              op_status := Failed;
                              op_result := None;
                              op_error := Some error |}
            end in
          ({| db := db';
              activeTransactions :=
                Map_set (activeTransactions sys) transactionId
                  (push_operation transaction operationRecord) |},
           outcome)
      | other => (sys, Err (TransactionNotActive transactionId other))
      end
  end.

Definition close_transaction (t : Transaction) (s : TxStatus) (ended : Z)
    (final : option Hash) : Transaction :=
  {| tx_id := tx_id t;
     startTime := startTime t;
     checkpointHash := checkpointHash t;
     operations := operations t;
     status := s;
     endTime := Some ended;
     finalCommitHash := final |}.

Definition commitTransaction (sys : System) (transactionId : string)
    (env : TxEnv) : System * Result Transaction :=
  match Map_get (activeTransactions sys) transactionId with
  | None => (sys, Err (TransactionNotFound transactionId))
  | Some transaction =>
      match status transaction with
      | Active =>
          match getCurrentCommitHash (db sys) (rev_parse_fault env) with
          | Err e =>
              (* status and endTime were already written to the shared object *)
              ({| db := db sys;
                  activeTransactions :=
                    Map_set (activeTransactions sys) transactionId
                      (close_transaction transaction Committed (now_ms env)
                         (finalCommitHash transaction)) |},
               Err e)
          | Ok h =>
              let committed :=
                close_transaction transaction Committed (now_ms env) (Some h) in
              let db' :=
                commitChanges (db sys)
                  (TransactionCommitted transactionId (length (operations transaction)))
                  (git_fault (store_env env)) in
              ({| db := db';
                  activeTransactions := Map_delete (activeTransactions sys) transactionId |},
               Ok committed)
          end
      | other => (sys, Err (TransactionNotActive transactionId other))
      end
  end.

Definition rollbackTransaction (sys : System) (transactionId : string)
    (env : TxEnv) : System * Result Transaction :=
  match Map_get (activeTransactions sys) transactionId with
  | None => (sys, Err (TransactionNotFound transactionId))
  | Some transaction =>
      match status transaction with
      | Active =>
          match revertToCommit (db sys) (checkpointHash transaction) (reset_fault env) with
          | (_, Err e) => (sys, Err e)
          | (db', Ok _) =>
              ({| db := db';
                  activeTransactions := Map_delete (activeTransactions sys) transactionId |},
               Ok (close_transaction transaction RolledBack (now_ms env)
                     (finalCommitHash transaction)))
          end
      | other => (sys, Err (TransactionNotActive transactionId other))
      end
  end.

Inductive OutcomeStatus : Type :=
  | rolled_back | error | auto_rolled_back | cleanup_error.

Record Outcome : Type := {
  out_id : string;
  out_status : OutcomeStatus;
  out_result : option Transaction;
  out_error : option Error
}.

(** The body shared by the two sweeps: one rollback attempt per id, its
    exception caught and turned into an outcome. *)
Fixpoint rollback_each (good bad : OutcomeStatus) (sys : System)
    (ids : list string) (envs : string → TxEnv) (results : list Outcome)
    : System * list Outcome :=
  match ids with
  | [] => (sys, results)
  | id :: rest =>
      match rollbackTransaction sys id (envs id) with
      | (sys', Ok result) =>
          rollback_each good bad sys' rest envs
            (results ++ [{| out_id := id; out_status := good;
                            out_result := Some result; out_error := None |}])
      | (sys', Err e) =>
          rollback_each good bad sys' rest envs
            (results ++ [{| out_id := id; out_status := bad;
                            out_result := None; out_error := Some e |}])
      end
  end.

Definition abortAllTransactions (sys : System) (envs : string → TxEnv)
    : System * list Outcome :=
  let transactionIds := Map_keys (activeTransactions sys) in
  rollback_each rolled_back error sys transactionIds envs [].

(** [ageMinutes > maxAgeMinutes] with [ageMinutes = (now - startTime) / 60000],
    on whole milliseconds and a whole number of minutes, compared without
    the division (the quotient of the source is exact enough for the two
    comparisons to agree on any threshold a clock can reach). *)
Definition is_stale (now maxAgeMinutes : Z) (t : Transaction) : bool :=
  bool_decide (maxAgeMinutes * 60000 < now - startTime t)%Z.

Definition cleanupStaleTransactions (sys : System) (maxAgeMinutes : Z) (now : Z)
    (envs : string → TxEnv) : System * list Outcome :=
  let staleTransactions :=
    (filter (λ kv, is_stale now maxAgeMinutes kv.2 = true) (activeTransactions sys)).*1 in
  rollback_each auto_rolled_back cleanup_error sys staleTransactions envs [].

(** ** The calls the HTTP routes make, as a trace *)

Inductive Action : Type :=
  | DirectCreate (collection : string) (data : Record) (env : StoreEnv)
  | DirectUpdate (collection : string) (id : Value) (data : Record) (env : StoreEnv)
  | DirectDelete (collection : string) (id : Value) (env : StoreEnv)
  | DirectRevert (commitHash : Hash) (fault : option string)
  | Begin (transactionId : option string) (env : TxEnv)
  | Execute (transactionId : string) (operation : string) (args : Args) (env : TxEnv)
  | CommitTx (transactionId : string) (env : TxEnv)
  | RollbackTx (transactionId : string) (env : TxEnv)
  | AbortAll (envs : string → TxEnv)
  | CleanupStale (maxAgeMinutes : Z) (now : Z) (envs : string → TxEnv).

Definition on_db (sys : System) (st : Store) : System :=
  {| db := st; activeTransactions := activeTransactions sys |}.

Definition step (sys : System) (a : Action) : System :=
  match a with
  | DirectCreate collection data env =>
      on_db sys (createRecord (db sys) collection data env).1
  | DirectUpdate collection id data env =>
      on_db sys (updateRecord (db sys) collection id data env).1
  | DirectDelete collection id env =>
      on_db sys (deleteRecord (db sys) collection id env).1
  | DirectRevert commitHash fault =>
      on_db sys (revertToCommit (db sys) commitHash fault).1
  | Begin transactionId env => (beginTransaction sys transactionId env).1
  | Execute transactionId operation args env =>
      (executeInTransaction sys transactionId operation args env).1
  | CommitTx transactionId env => (commitTransaction sys transactionId env).1
  | RollbackTx transactionId env => (rollbackTransaction sys transactionId env).1
  | AbortAll envs => (abortAllTransactions sys envs).1
  | CleanupStale maxAgeMinutes now envs =>
      (cleanupStaleTransactions sys maxAgeMinutes now envs).1
  end.

Definition run (sys : System) (trace : list Action) : System :=
  fold_left step trace sys.

(** An action that cannot end transaction [id]: anything but its own commit
    or rollback and the two sweeps. *)
Definition leaves_open (id : string) (a : Action) : bool :=
  match a with
  | CommitTx id' _ | RollbackTx id' _ => negb (bool_decide (id' = id))
  | AbortAll _ | CleanupStale _ _ _ => false
  | _ => true
  end.

(** ** Predicates used by the statements *)

(** The directory holds exactly what [HEAD] captured. *)
Definition clean (st : Store) : bool := nothing_to_commit st.

(** Every hash in use is one the repository holds: [HEAD] (once there is a
    commit) and the checkpoint of every registered transaction; no hash is
    empty; and the registry has one entry per id, as a [Map] does. *)
Definition consistent (sys : System) : bool :=
  bool_decide (HEAD (db sys) = [] ∨ HEAD (db sys) ∈ objects (db sys))
  && bool_decide (Forall (λ h, h ≠ []) (objects (db sys)))
  && bool_decide (Forall (λ kv, checkpointHash kv.2 ∈ objects (db sys))
                    (activeTransactions sys))
  && bool_decide (NoDup (Map_keys (activeTransactions sys))).

(** The [id] fields of a collection, in order. *)
Definition ids_of (records : list Record) : list (option Value) :=
  (λ r : Record, r !! "id") <$> records.

(** [consistent], part by part, as propositions. *)
Definition repo_ok (st : Store) : Prop :=
  (HEAD st = [] ∨ HEAD st ∈ objects st) ∧ Forall (λ h, h ≠ []) (objects st).

(** [st'] holds every hash [st] holds, and is well formed if [st] is. *)
Definition extends (st st' : Store) : Prop :=
  (∀ h, h ∈ objects st → h ∈ objects st') ∧ (repo_ok st → repo_ok st').

Record Consistent (sys : System) : Prop := {
  consistent_repo : repo_ok (db sys);
  consistent_checkpoints :
    Forall (λ kv, checkpointHash kv.2 ∈ objects (db sys)) (activeTransactions sys);
  consistent_keys : NoDup (Map_keys (activeTransactions sys))
}.

(** Transaction [id] is registered, active, and its checkpoint is [C]. *)
Definition open_at (id : string) (C : Hash) (sys : System) : Prop :=
  ∃ t, Map_get (activeTransactions sys) id = Some t
       ∧ status t = Active ∧ checkpointHash t = C.

(** The outcome the sweep would record for [id] if it were the only
    transaction attempted, from the state the sweep starts in. *)
Definition attempt_alone (good bad : OutcomeStatus) (sys : System)
    (envs : string → TxEnv) (id : string) : Outcome :=
  match (rollbackTransaction sys id (envs id)).2 with
  | Ok t => {| out_id := id; out_status := good;
               out_result := Some t; out_error := None |}
  | Err e => {| out_id := id; out_status := bad;
                out_result := None; out_error := Some e |}
  end.



(** ** Sample states *)

Definition sample_env : StoreEnv :=
  {| clock_ms := 1700000000000;
     random_digits := "k3j9x0q1z";
     iso_now := "2023-11-14T22:13:20.000Z";
     meta_stamp := "2023-11-14T22:13:20.001Z";
     coll_stamp := "2023-11-14T22:13:20.001Z";
     git_fault := None |}.

Definition sample_store : Store := initialize "2023-11-14T22:00:00.000Z".

Definition sample_tx_env : TxEnv :=
  {| id_clock_ms := 1700000001000;
     id_random := "ab12cd";
     now_ms := 1700000001000;
     catch_now_ms := 1700000001005;
     rev_parse_fault := None;
     reset_fault := None;
     store_env := sample_env |}.

Definition sample_system : System :=
  {| db := sample_store; activeTransactions := [] |}.

(** The value standing for a registry lookup that finds nothing. *)
Definition no_transaction : Transaction :=
  {| tx_id := EmptyString; startTime := 0; checkpointHash := []; operations := [];
     status := RolledBack; endTime := None; finalCommitHash := None |}.

Definition name_only (name : string) : Record := {[ "name" := VStr name ]}.

Definition with_id (id name : string) : Record :=
  {[ "id" := VStr id; "name" := VStr name ]}.

(** A collection that already holds a record whose id is ["a"]. *)
Definition store_with_a : Store :=
  (createRecord sample_store "users" (with_id "a" "A") sample_env).1.

Definition faulty_env : StoreEnv :=
  {| clock_ms := clock_ms sample_env;
     random_digits := random_digits sample_env;
     iso_now := iso_now sample_env;
     meta_stamp := meta_stamp sample_env;
     coll_stamp := coll_stamp sample_env;
     git_fault := Some "fatal: Unable to create '.git/index.lock': File exists." |}.

Definition system_with_T1 : System :=
  (beginTransaction sample_system (Some "T1") sample_tx_env).1.

Definition system_before_T1 : System :=
  {| db := store_with_a; activeTransactions := [] |}.

Definition trace_in_T1 : list Action :=
  [ Execute "T1" "delete" (DeleteArgs "users" (VStr "a")) sample_tx_env;
    Execute "T1" "create" (CreateArgs "users" (name_only "B")) sample_tx_env;
    DirectCreate "posts" (name_only "P") sample_env;
    Begin (Some "T2") sample_tx_env;
    CommitTx "T2" sample_tx_env ].

(** A record is stored, then transaction ["T1"] begins and stores another. *)
Definition trace_opening_T1 : list Action :=
  [ DirectCreate "users" (with_id "a" "A") sample_env;
    Begin (Some "T1") sample_tx_env;
    Execute "T1" "create" (CreateArgs "users" (name_only "B")) sample_tx_env ].



Definition system_with_T1_T2 : System :=
  (beginTransaction system_with_T1 (Some "T2") sample_tx_env).1.

(** ** Reading the registry *)

Definition getTransaction (sys : System) (transactionId : string) : option Transaction :=
  Map_get (activeTransactions sys) transactionId.

Definition getActiveTransactions (sys : System) : list Transaction :=
  (activeTransactions sys).*2.

(** The average is a quotient of two counts; it is kept as the exact
    fraction where JavaScript rounds it to a double. *)
Record TransactionStats : Type := {
  stats_activeTransactions : nat;
  oldestTransaction : option Transaction;
  averageOperationsPerTransaction : Q;
  totalOperations : nat
}.

(** The callback of the first [reduce]: the later of two equally old
    transactions does not replace the earlier one. *)
Definition older (oldest current : Transaction) : Transaction :=
  if bool_decide (startTime current < startTime oldest)%Z then current else oldest.

Definition getTransactionStats (sys : System) : TransactionStats :=
  let transactions := getActiveTransactions sys in
  match transactions with
  | [] =>
      {| stats_activeTransactions := length (activeTransactions sys);
         oldestTransaction := None;
         averageOperationsPerTransaction := 0%Q;
         totalOperations := 0 |}
  | first :: rest =>
      let total :=
        fold_left (λ total tx, (total + length (operations tx))%nat) transactions 0%nat in
      {| stats_activeTransactions := length (activeTransactions sys);
         oldestTransaction := Some (fold_left older rest first);
         averageOperationsPerTransaction :=
           (Z.of_nat total # Pos.of_nat (length transactions))%Q;
         totalOperations := total |}
  end.

(** ** Paging a collection (the route [GET /api/data/:collection]) *)

(** A query parameter: absent (or empty), or a non-empty string together
    with what [parseInt] makes of it ([None] for [NaN]). *)
Inductive QueryParam : Type :=
  | Absent
  | Given (parsed : option Z).

Definition param_truthy (p : QueryParam) : bool :=
  match p with Absent => false | Given _ => true end.

Definition parseInt (p : QueryParam) : option Z :=
  match p with Absent => None | Given parsed => parsed end.

(** [x || d] on the result of [parseInt]: [NaN] and [0] give way to [d]. *)
Definition or_default (x : option Z) (d : Z) : Z :=
  match x with
  | Some n => if bool_decide (n = 0)%Z then d else n
  | None => d
  end.

(** [Array.prototype.slice]: a negative index counts from the end, both
    indices are clamped to the array. *)
Definition slice {A : Type} (l : list A) (start stop : Z) : list A :=
  let len := Z.of_nat (length l) in
  let clamp i := if bool_decide (i < 0)%Z then Z.max (len + i) 0 else Z.min i len in
  take (Z.to_nat (clamp stop - clamp start)) (drop (Z.to_nat (clamp start)) l).

Record Pagination : Type := {
  total : nat;
  offset : Z;
  limit : Z;
  hasMore : bool
}.

(** The paging of the route, applied to the records left by the search
    filter. *)
Definition paginate {A : Type} (records : list A) (limit offset : QueryParam)
    : list A * Pagination :=
  let total := length records in
  let startIndex := or_default (parseInt offset) 0 in
  let limitNum := or_default (parseInt limit) (Z.of_nat total) in
  let page :=
    if param_truthy limit || param_truthy offset
    then slice records startIndex (startIndex + limitNum)
    else records in
  (page,
   {| total := total;
      offset := startIndex;
      limit := limitNum;
      hasMore := bool_decide (startIndex + limitNum < Z.of_nat total)%Z |}).

(** ** Listing the collections *)

Fixpoint starts_with (s pattern : string) {struct pattern} : bool :=
  match pattern, s with
  | EmptyString, _ => true
  | String a pattern', String b s' => bool_decide (a = b) && starts_with s' pattern'
  | String _ _, EmptyString => false
  end.

Fixpoint endsWith (s suffix : string) : bool :=
  bool_decide (s = suffix)
  || match s with
     | EmptyString => false
     | String _ s' => endsWith s' suffix
     end.

Fixpoint string_drop (n : nat) (s : string) : string :=
  match n, s with
  | O, _ => s
  | S n', String _ s' => string_drop n' s'
  | S _, EmptyString => EmptyString
  end.

(** [s.replace(pattern, replacement)] with a string pattern: only the first
    occurrence is replaced. *)
Fixpoint replace_first (pattern replacement s : string) : string :=
  if starts_with s pattern
  then replacement +:+ string_drop (String.length pattern) s
  else match s with
       | EmptyString => EmptyString
       | String c s' => String c (replace_first pattern replacement s')
       end.

(** [s.includes(pattern)]. *)
Definition includes (s pattern : string) : Prop :=
  ∃ before after, s = before +:+ pattern +:+ after.

(** What [getCollections] makes of the entries [readdir] returns. *)
Definition collection_names (entries : list string) : list string :=
  replace_first ".json" EmptyString
    <$> filter (λ file, endsWith file ".json" = true) entries.

(** The entries of the data directory: one file per collection (collection
    names are taken to hold no path separator; the order of the entries is
    the file system's and is not modelled). *)
Definition data_entries (st : Store) : list string :=
  (λ collection, collection +:+ ".json") <$> (map_to_list (files (worktree st))).*1.

Definition getCollections (st : Store) : list string :=
  collection_names (data_entries st).

(** ** Further predicates *)

(** A collection name that is a file name: no path separator in it (on a
    file system that tells upper from lower case, two such names are two
    files of the data directory). *)
Fixpoint has_separator (s : string) : bool :=
  match s with
  | EmptyString => false
  | String c s' => bool_decide (c = "/"%char) || has_separator s'
  end.

Definition plain_name (s : string) : bool := negb (has_separator s).

(** Every collection the call names is a plain name. *)
Definition plain_names (a : Action) : bool :=
  match a with
  | DirectCreate collection _ _ | DirectUpdate collection _ _ _
  | DirectDelete collection _ _ => plain_name collection
  | Execute _ _ (CreateArgs collection _) _
  | Execute _ _ (UpdateArgs collection _ _) _
  | Execute _ _ (DeleteArgs collection _) _ => plain_name collection
  | _ => true
  end.

(** The call is an [executeInTransaction] on transaction [id]. *)
Definition executes_in (id : string) (a : Action) : bool :=
  match a with
  | Execute id' _ _ _ => bool_decide (id' = id)
  | _ => false
  end.


(** No git command fails while this call captures the directory. *)
Definition captures (a : Action) : bool :=
  match a with
  | DirectCreate _ _ env | DirectUpdate _ _ _ env | DirectDelete _ _ env =>
      bool_decide (git_fault env = None)
  | Execute _ _ _ env | CommitTx _ env =>
      bool_decide (git_fault (store_env env) = None)
  | _ => true
  end.

(** The number of records in all collection files. *)
Definition count_all (fs : gmap string (list Record)) : nat :=
  map_fold (λ _ records total, (total + length records)%nat) 0%nat fs.

(** The metadata file is readable, lists exactly the collections that have
    a file, each with the length of its file, and its total is the sum of
    the listed counts.  The name [__proto__] is apart: it is never listed,
    whether it has a file or not. *)
Definition tree_ok (t : Tree) : Prop :=
  ∃ m, metadata t = Some m
       ∧ totalRecords m
         = map_fold (λ _ col total, (total + recordCount col)%nat) 0%nat (collections m)
       ∧ collections m !! "__proto__" = None
       ∧ ∀ c, c ≠ "__proto__" →
              recordCount <$> (collections m !! c) = length <$> (files t !! c).

(** The directory and every commit the repository holds have sound
    metadata. *)
Definition store_sound (st : Store) : Prop :=
  tree_ok (worktree st)
  ∧ Forall (λ h, match h with c :: _ => tree_ok (c_tree c) | [] => True end)
      (objects st).

(** Transaction [id] is registered with status committed: the state a
    failed [git rev-parse] leaves behind in [commitTransaction]. *)
Definition stuck_at (id : string) (t : Transaction) (sys : System) : Prop :=
  Map_get (activeTransactions sys) id = Some t ∧ status t = Committed.

Definition failing_rev_parse_env : TxEnv :=
  {| id_clock_ms := id_clock_ms sample_tx_env;
     id_random := id_random sample_tx_env;
     now_ms := now_ms sample_tx_env;
     catch_now_ms := catch_now_ms sample_tx_env;
     rev_parse_fault := Some "fatal: not a git repository";
     reset_fault := None;
     store_env := sample_env |}.

(** * Properties *)

(** ** Searching a collection *)

Section Searching.
Context {A : Type} (p : A → bool).

Lemma findIndex_None (l : list A) :
  findIndex p l = None ↔ ∀ x, x ∈ l → p x = false.
Proof.
  induction l as [ | a l IH]; simpl.
  - split; [ | done]. intros _ x Hx. by apply elem_of_nil in Hx.
  - destruct (p a) eqn:Ha.
    + split; [done | ]. intros H. specialize (H a (list_elem_of_here _ _)). congruence.
    + destruct (findIndex p l) as [i | ]; simpl.
      * split; [done | ]. intros H.
        assert (Some i = None) as Hi; [ | done].
        apply IH. intros x Hx. apply H. by apply list_elem_of_further.
      * split; [ | done]. intros _ x Hx.
        apply elem_of_cons in Hx as [-> | Hx]; [done | ]. by apply IH.
Qed.

Lemma findIndex_Some (l : list A) (i : nat) :
  findIndex p l = Some i →
  ∃ x, l !! i = Some x ∧ p x = true ∧
       ∀ j y, (j < i)%nat → l !! j = Some y → p y = false.
Proof.
  revert i. induction l as [ | a l IH]; simpl; intros i; [done | ].
  destruct (p a) eqn:Ha.
  - intros [= <-]. exists a. repeat split; [done | ]. intros j y Hj. lia.
  - destruct (findIndex p l) as [i' | ]; simpl; [ | done].
    intros [= <-]. destruct (IH i' eq_refl) as (x & Hx & Hp & Hbefore).
    exists x. repeat split; [done .. | ].
    intros [ | j] y Hj; simpl.
    + by intros [= <-].
    + apply Hbefore. lia.
Qed.

Lemma find_findIndex (l : list A) :
  List.find p l = (findIndex p l) ≫= (l !!.).
Proof.
  induction l as [ | a l IH]; simpl; [done | ].
  destruct (p a); [done | ]. rewrite IH.
  by destruct (findIndex p l).
Qed.

Lemma find_app_miss (l : list A) (x : A) :
  (∀ y, y ∈ l → p y = false) → p x = true → List.find p (l ++ [x]) = Some x.
Proof.
  intros Hmiss Hx. induction l as [ | a l IH]; simpl.
  - by rewrite Hx.
  - rewrite (Hmiss a (list_elem_of_here _ _)). apply IH.
    intros y Hy. apply Hmiss. by apply list_elem_of_further.
Qed.
End Searching.

(** ** Identity of records *)

Lemma strict_equal_eq (a b : option Value) : strict_equal a b = true → a = b.
Proof.
  destruct a as [[ | x | x | x | x | x] | ], b as [[ | y | y | y | y | y] | ];
    simpl; try done; rewrite bool_decide_eq_true; congruence.
Qed.

Lemma strict_equal_primitive (v : Value) :
  primitive v = true → strict_equal (Some v) (Some v) = true.
Proof. destruct v; simpl; try done; by rewrite bool_decide_eq_true. Qed.

Lemma has_id_eq (id : Value) (r : Record) : has_id id r = true → r !! "id" = Some id.
Proof. apply strict_equal_eq. Qed.

Lemma has_id_primitive (id : Value) (r : Record) :
  primitive id = true → r !! "id" = Some id → has_id id r = true.
Proof. intros Hp Hr. unfold has_id. rewrite Hr. by apply strict_equal_primitive. Qed.

Lemma generateId_nonempty (env : StoreEnv) : generateId env ≠ EmptyString.
Proof. unfold generateId. by destruct (pretty (clock_ms env)). Qed.

Lemma truthy_generated (env : StoreEnv) : truthy (Some (VStr (generateId env))) = true.
Proof.
  simpl. rewrite bool_decide_eq_false_2; [done | apply generateId_nonempty].
Qed.

Lemma truthy_nonempty (v : option Value) :
  truthy v = true → v ≠ None ∧ v ≠ Some (VStr EmptyString) ∧ v ≠ Some VNull.
Proof. destruct v as [[ | | | s | | ] | ]; simpl; try done. by destruct s. Qed.

(** ** What the store methods leave on disk *)

Lemma files_updateMetadata st collection count env :
  files (worktree (updateMetadata st collection count env)) = files (worktree st).
Proof. unfold updateMetadata. by destruct (metadata (worktree st)). Qed.

Lemma HEAD_updateMetadata st collection count env :
  HEAD (updateMetadata st collection count env) = HEAD st
  ∧ objects (updateMetadata st collection count env) = objects st.
Proof. unfold updateMetadata. by destruct (metadata (worktree st)). Qed.

Lemma files_saveCollection st collection records env :
  files (worktree (saveCollection st collection records env))
  = <[collection := records]> (files (worktree st)).
Proof. unfold saveCollection. by rewrite files_updateMetadata. Qed.

Lemma HEAD_saveCollection st collection records env :
  HEAD (saveCollection st collection records env) = HEAD st
  ∧ objects (saveCollection st collection records env) = objects st.
Proof.
  unfold saveCollection.
  split; [rewrite (proj1 (HEAD_updateMetadata _ _ _ _))
         | rewrite (proj2 (HEAD_updateMetadata _ _ _ _))]; done.
Qed.

Lemma worktree_commitChanges st message fault :
  worktree (commitChanges st message fault) = worktree st.
Proof.
  unfold commitChanges. destruct fault; [done | ].
  by destruct (nothing_to_commit st).
Qed.

Lemma getCollection_saved st collection records env message fault other :
  getCollection (commitChanges (saveCollection st collection records env) message fault)
    other
  = if bool_decide (other = collection) then records else getCollection st other.
Proof.
  unfold getCollection. rewrite worktree_commitChanges, files_saveCollection.
  case_bool_decide as Hc.
  - subst. by rewrite lookup_insert_eq.
  - by rewrite lookup_insert_ne.
Qed.

Lemma commitChanges_fault st message detail :
  commitChanges st message (Some detail) = st.
Proof. done. Qed.

Lemma commitChanges_clean st message :
  clean (commitChanges st message None) = true.
Proof.
  unfold clean, commitChanges. destruct (nothing_to_commit st) eqn:E; [done | ].
  unfold nothing_to_commit. simpl. by rewrite bool_decide_eq_true.
Qed.

(** The record [createRecord] builds. *)
Lemma createRecord_result st collection data env :
  ∃ st' id,
    createRecord st collection data env
    = (st', Ok (<["updatedAt" := VStr (iso_now env)]>
                  (<["createdAt" := VStr (iso_now env)]> (<["id" := id]> data))))
    ∧ truthy (Some id) = true
    ∧ (truthy (data !! "id") = true → data !! "id" = Some id)
    ∧ (truthy (data !! "id") = false → id = VStr (generateId env))
    ∧ ∀ other,
        getCollection st' other
        = if bool_decide (other = collection)
          then getCollection st collection
               ++ [<["updatedAt" := VStr (iso_now env)]>
                     (<["createdAt" := VStr (iso_now env)]> (<["id" := id]> data))]
          else getCollection st other.
Proof.
  unfold createRecord. eexists _, _. split; [reflexivity | ].
  destruct (truthy (data !! "id")) eqn:Ht.
  - destruct (data !! "id") as [v | ] eqn:Hv; [ | done]. simpl.
    repeat split; try done. intros other. apply getCollection_saved.
  - repeat split; try done.
    + apply truthy_generated.
    + intros other. apply getCollection_saved.
Qed.

(** The record [updateRecord] stores, when it finds one to update. *)
Lemma updateRecord_found st collection id data env index :
  findIndex (has_id id) (getCollection st collection) = Some index →
  ∃ st' old,
    getCollection st collection !! index = Some old
    ∧ old !! "id" = Some id
    ∧ (∀ j r, (j < index)%nat → getCollection st collection !! j = Some r →
              has_id id r = false)
    ∧ updateRecord st collection id data env
      = (st', Ok (<["updatedAt" := VStr (iso_now env)]> (<["id" := id]> (data ∪ old))))
    ∧ ∀ other,
        getCollection st' other
        = if bool_decide (other = collection)
          then <[index := <["updatedAt" := VStr (iso_now env)]>
                            (<["id" := id]> (data ∪ old))]>
                 (getCollection st collection)
          else getCollection st other.
Proof.
  intros Hfind. unfold updateRecord. rewrite Hfind.
  destruct (findIndex_Some _ _ _ Hfind) as (old & Hold & Hid & Hbefore).
  rewrite Hold. simpl. eexists _, old. repeat split; try done.
  - by apply has_id_eq.
  - intros other. apply getCollection_saved.
Qed.

Lemma updateRecord_missing st collection id data env :
  findIndex (has_id id) (getCollection st collection) = None →
  updateRecord st collection id data env = (st, Err (RecordNotFound id collection)).
Proof. intros Hfind. unfold updateRecord. by rewrite Hfind. Qed.

Lemma ids_of_app (l1 l2 : list Record) : ids_of (l1 ++ l2) = ids_of l1 ++ ids_of l2.
Proof. unfold ids_of. apply fmap_app. Qed.

Lemma ids_of_insert (l : list Record) (i : nat) (old new : Record) :
  l !! i = Some old → new !! "id" = old !! "id" → ids_of (<[i := new]> l) = ids_of l.
Proof.
  intros Hold Hid. unfold ids_of. rewrite list_fmap_insert, Hid.
  apply list_insert_id. by rewrite list_lookup_fmap, Hold.
Qed.

Lemma merged_id (id ts : Value) (r : Record) :
  (<["updatedAt" := ts]> (<["id" := id]> r)) !! "id" = Some id.
Proof. by rewrite lookup_insert_ne, lookup_insert_eq. Qed.

Lemma merged_other (id ts : Value) (data old : Record) (k : string) :
  k ≠ "id" → k ≠ "updatedAt" →
  (<["updatedAt" := ts]> (<["id" := id]> (data ∪ old))) !! k
  = match data !! k with Some v => Some v | None => old !! k end.
Proof.
  intros Hid Hts. rewrite !lookup_insert_ne by done.
  rewrite lookup_union. by destruct (data !! k), (old !! k).
Qed.

Lemma exists_findIndex {A : Type} (p : A → bool) (l : list A) (x : A) :
  x ∈ l → p x = true → ∃ i, findIndex p l = Some i.
Proof.
  intros Hx Hp. destruct (findIndex p l) as [i | ] eqn:E; [by exists i | ].
  rewrite (proj1 (findIndex_None p l) E x Hx) in Hp. done.
Qed.

(** ** Claims on the collection store *)

(** C6. Whenever [createRecord] returns (it throws when the file cannot be
    written), the record it returns carries a generated id when the caller
    gave none or a falsy one, and the caller's id when that is truthy; its
    [createdAt] and [updatedAt] are one timestamp; it is appended after the
    records already in the collection, which keep their order; and it is the
    record stored.  Collections under other plain file names are left
    alone. *)
Theorem createRecord_appends st collection data env st' r :
  createRecord st collection data env = (st', Ok r) →
  (data !! "id" = None → r !! "id" = Some (VStr (generateId env)))
  ∧ (truthy (data !! "id") = false → r !! "id" = Some (VStr (generateId env)))
  ∧ (truthy (data !! "id") = true → r !! "id" = data !! "id")
  ∧ r !! "createdAt" = Some (VStr (iso_now env))
  ∧ r !! "updatedAt" = r !! "createdAt"
  ∧ getCollection st' collection = getCollection st collection ++ [r]
  ∧ last (getCollection st' collection) = Some r
  ∧ ∀ other,
      plain_name collection = true → plain_name other = true → other ≠ collection →
      getCollection st' other = getCollection st other.
Proof.
  intros Hreturned.
  destruct (createRecord_result st collection data env)
    as (st0 & id & Hrun & Htruthy & Hkept & Hgen & Hcoll).
  rewrite Hreturned in Hrun. injection Hrun as <- ->.
  assert (getCollection st' collection
          = getCollection st collection
            ++ [<["updatedAt" := VStr (iso_now env)]>
                  (<["createdAt" := VStr (iso_now env)]> (<["id" := id]> data))])
    as Happ.
  { rewrite Hcoll. by rewrite bool_decide_eq_true_2. }
  split_and!.
  - intros Hnone. rewrite !lookup_insert_ne, lookup_insert_eq by done.
    f_equal. apply Hgen. by rewrite Hnone.
  - intros Hfalsy. rewrite !lookup_insert_ne, lookup_insert_eq by done.
    f_equal. by apply Hgen.
  - intros Ht. rewrite !lookup_insert_ne, lookup_insert_eq by done.
    symmetry. by apply Hkept.
  - by rewrite lookup_insert_ne, lookup_insert_eq.
  - by rewrite lookup_insert_eq, lookup_insert_ne, lookup_insert_eq.
  - exact Happ.
  - rewrite Happ. apply last_snoc.
  - intros other _ _ Hother. rewrite Hcoll. by rewrite bool_decide_eq_false_2.
Qed.

Lemma createRecord_appends_witness :
  ∃ st' r,
    createRecord sample_store "users" (name_only "A") sample_env = (st', Ok r)
    ∧ r !! "id" = Some (VStr "1700000000000-k3j9x0q1z")
    ∧ getCollection st' "posts" = [].
Proof.
  eexists _, _. split; [reflexivity | ].
  destruct (createRecord_appends sample_store "users" (name_only "A") sample_env _ _
              eq_refl)
    as (Hgen & _ & _ & _ & _ & _ & _ & Hother).
  split.
  - apply Hgen. reflexivity.
  - rewrite Hother; [reflexivity | reflexivity | reflexivity | discriminate].
Defined.

(** C2, as the code has it. [createRecord] never compares the new id with
    the ids already stored: the ids of a collection stay pairwise distinct
    when the new record's id is not among them.  The id of a created record
    is never empty (it is truthy: present, not the empty string, not null),
    and [updateRecord] leaves the id of every record of every collection as
    it was. *)
Theorem ids_distinct_when_fresh :
  (∀ st collection data env st' r,
      createRecord st collection data env = (st', Ok r) →
      NoDup (ids_of (getCollection st collection)) →
      r !! "id" ∉ ids_of (getCollection st collection) →
      NoDup (ids_of (getCollection st' collection)))
  ∧ (∀ st collection data env st' r,
      createRecord st collection data env = (st', Ok r) →
      truthy (r !! "id") = true ∧ r !! "id" ≠ None ∧ r !! "id" ≠ Some (VStr EmptyString))
  ∧ (∀ st collection id data env other,
      ids_of (getCollection (updateRecord st collection id data env).1 other)
      = ids_of (getCollection st other)).
Proof.
  split; [ | split].
  - intros st collection data env st' r Hrun Hnodup Hfresh.
    destruct (createRecord_result st collection data env)
      as (st0 & id0 & Hrun0 & _ & _ & _ & Hcoll).
    rewrite Hrun in Hrun0. injection Hrun0 as <- Hr.
    rewrite Hcoll, bool_decide_eq_true_2, <- Hr by done.
    rewrite ids_of_app. apply NoDup_app. repeat split; [done | | ].
    + intros x Hx Hin. simpl in Hin. apply list_elem_of_singleton in Hin. by subst.
    + simpl. apply NoDup_singleton.
  - intros st collection data env st' r Hrun.
    destruct (createRecord_result st collection data env)
      as (st0 & id & Hrun0 & Htruthy & _).
    rewrite Hrun in Hrun0. injection Hrun0 as <- ->.
    rewrite !lookup_insert_ne, lookup_insert_eq by done.
    split; [done | ]. destruct (truthy_nonempty _ Htruthy) as (? & ? & ?). done.
  - intros st collection id data env other.
    destruct (findIndex (has_id id) (getCollection st collection)) as [index | ] eqn:E.
    + destruct (updateRecord_found st collection id data env index E)
        as (st' & old & Hold & Hid & _ & Hrun & Hcoll).
      rewrite Hrun. simpl. rewrite Hcoll. case_bool_decide as Hc; [ | done]. subst.
      apply (ids_of_insert _ _ old); [done | ]. by rewrite merged_id.
    + by rewrite (updateRecord_missing _ _ _ _ _ E).
Qed.

Lemma ids_distinct_when_fresh_witness :
  NoDup (ids_of (getCollection
                   (createRecord store_with_a "users" (with_id "b" "B") sample_env).1
                   "users")).
Proof.
  eapply (proj1 ids_distinct_when_fresh store_with_a "users" (with_id "b" "B") sample_env).
  - reflexivity.
  - compute_done.
  - compute_done.
Defined.

(** C2 as stated fails: creating a record with the explicit id ["a"] in a
    collection that already holds id ["a"] leaves two records sharing it. *)
Lemma explicit_id_duplicates :
  NoDup (ids_of (getCollection store_with_a "users"))
  ∧ ¬ NoDup (ids_of (getCollection
                       (createRecord store_with_a "users" (with_id "a" "B") sample_env).1
                       "users")).
Proof.
  split; compute_done.
Qed.



(** C10. [updateRecord] overrides only [id] and [updatedAt] after spreading
    the caller's fields: a supplied [createdAt] (or any field other than
    those two) is stored as supplied, while a supplied [id] or [updatedAt]
    is not.  [createRecord] sets [createdAt] and [updatedAt] after spreading
    the caller's fields, so whenever it returns both are the store's
    timestamp in the record it returns and stores, whatever the caller
    supplied. *)
Theorem update_shields_only_id_and_updatedAt :
  (∀ st collection id data env v,
     (∃ r, r ∈ getCollection st collection ∧ has_id id r = true) →
     data !! "createdAt" = Some v →
     ∃ st' index merged,
       updateRecord st collection id data env = (st', Ok merged)
       ∧ getCollection st' collection !! index = Some merged
       ∧ merged !! "createdAt" = Some v
       ∧ merged !! "id" = Some id
       ∧ merged !! "updatedAt" = Some (VStr (iso_now env))
       ∧ ∀ k w, k ≠ "id" → k ≠ "updatedAt" → data !! k = Some w → merged !! k = Some w)
  ∧ (∀ st collection data env st' r,
     createRecord st collection data env = (st', Ok r) →
     last (getCollection st' collection) = Some r
     ∧ r !! "createdAt" = Some (VStr (iso_now env))
     ∧ r !! "updatedAt" = Some (VStr (iso_now env))).
Proof.
  split.
  - intros st collection id data env v (r & Hr & Hid) Hv.
    destruct (exists_findIndex _ _ _ Hr Hid) as [index Hindex].
    destruct (updateRecord_found st collection id data env index Hindex)
      as (st' & old & Hold & Holdid & Hbefore & Hrun & Hcoll).
    eexists st', index, _. split; [exact Hrun | ].
    repeat split.
    + rewrite Hcoll, bool_decide_eq_true_2 by done.
      apply list_lookup_insert_eq. by eapply lookup_lt_Some.
    + rewrite merged_other by done. by rewrite Hv.
    + by rewrite merged_id.
    + by rewrite lookup_insert_eq.
    + intros k w Hk1 Hk2 Hw. rewrite merged_other by done. by rewrite Hw.
  - intros st collection data env st' r Hreturned.
    destruct (createRecord_result st collection data env)
      as (st0 & id & Hrun & _ & _ & _ & Hcoll).
    rewrite Hreturned in Hrun. injection Hrun as <- ->. repeat split.
    + rewrite Hcoll, bool_decide_eq_true_2 by done. apply last_snoc.
    + by rewrite lookup_insert_ne, lookup_insert_eq.
    + by rewrite lookup_insert_eq.
Qed.

Lemma update_shields_only_id_and_updatedAt_witness :
  ∃ st' index merged,
    updateRecord store_with_a "users" (VStr "a")
      {[ "createdAt" := VStr "1999-01-01T00:00:00.000Z"; "id" := VStr "other" ]}
      sample_env
    = (st', Ok merged)
    ∧ getCollection st' "users" !! index = Some merged
    ∧ merged !! "createdAt" = Some (VStr "1999-01-01T00:00:00.000Z")
    ∧ merged !! "id" = Some (VStr "a")
    ∧ ∃ st2 r,
        createRecord sample_store "users"
          {[ "createdAt" := VStr "1999-01-01T00:00:00.000Z" ]} sample_env
        = (st2, Ok r)
        ∧ r !! "createdAt" = Some (VStr (iso_now sample_env)).
Proof.
  destruct (proj1 update_shields_only_id_and_updatedAt store_with_a "users" (VStr "a")
              {[ "createdAt" := VStr "1999-01-01T00:00:00.000Z"; "id" := VStr "other" ]}
              sample_env (VStr "1999-01-01T00:00:00.000Z"))
    as (st' & index & merged & Hrun & Hstored & Hcreated & Hid & _).
  - exists (default ∅ (getCollection store_with_a "users" !! 0%nat)).
    split; compute_done.
  - reflexivity.
  - exists st', index, merged. split_and!; try done.
    eexists _, _. split; [reflexivity | ].
    apply (proj2 update_shields_only_id_and_updatedAt sample_store "users"
             {[ "createdAt" := VStr "1999-01-01T00:00:00.000Z" ]} sample_env _ _
             eq_refl).
Defined.

(** C7, as the code has it. [createRecord] followed by [getRecord] on the
    created record's id returns the created record when that id is a string,
    number, boolean or null (every generated id is a string) and no record
    already in the collection carries it. *)
Theorem create_then_get st collection data env st' r id :
  createRecord st collection data env = (st', Ok r) →
  r !! "id" = Some id →
  primitive id = true →
  (∀ old, old ∈ getCollection st collection → old !! "id" ≠ Some id) →
  getRecord st' collection id = Some r.
Proof.
  intros Hrun Hid Hprim Hfresh.
  destruct (createRecord_result st collection data env)
    as (st0 & id0 & Hrun0 & _ & _ & _ & Hcoll).
  rewrite Hrun in Hrun0. injection Hrun0 as <- Hr.
  unfold getRecord. rewrite Hcoll, bool_decide_eq_true_2, <- Hr by done.
  apply find_app_miss.
  - intros old Hold. destruct (has_id id old) eqn:E; [ | done].
    apply has_id_eq in E. by apply Hfresh in Hold.
  - by apply has_id_primitive.
Qed.

Lemma create_then_get_witness :
  ∃ st' r,
    createRecord store_with_a "users" (name_only "B") sample_env = (st', Ok r)
    ∧ getRecord st' "users" (VStr "1700000000000-k3j9x0q1z") = Some r.
Proof.
  eexists _, _. split; [reflexivity | ].
  apply (create_then_get store_with_a "users" (name_only "B") sample_env).
  - reflexivity.
  - reflexivity.
  - reflexivity.
  - intros old Hold. vm_compute in Hold. apply list_elem_of_singleton in Hold.
    subst old. discriminate.
Defined.

(** C7 as stated fails: after creating a record with the explicit id ["a"]
    in a collection that already holds id ["a"], [getRecord] returns the
    older record, not the one just created. *)
Lemma create_then_get_returns_older :
  ∃ st' r,
    createRecord store_with_a "users" (with_id "a" "B") sample_env = (st', Ok r)
    ∧ r !! "id" = Some (VStr "a")
    ∧ getRecord st' "users" (VStr "a") ≠ Some r.
Proof.
  eexists _, _. split; [reflexivity | ]. split; [reflexivity | ].
  compute_done.
Qed.

(** C3, on the code. When [git commit] fails for a reason other than an
    unchanged tree, [commitChanges] only logs: [createRecord] still returns
    the record, the collection file holds it, and [HEAD] has not moved, so
    the directory and the snapshot log disagree. *)
Lemma createRecord_swallows_capture_failure :
  ∃ st' r,
    createRecord sample_store "users" (name_only "A") faulty_env = (st', Ok r)
    ∧ getCollection st' "users" = [r]
    ∧ HEAD st' = HEAD sample_store
    ∧ clean st' = false.
Proof.
  eexists _, _. split; [reflexivity | ]. repeat split; compute_done.
Qed.

(** ** The registry of active transactions *)

Lemma Map_get_set_eq (m : TxMap) k v : Map_get (Map_set m k v) k = Some v.
Proof.
  induction m as [ | [k' v'] m IH]; simpl.
  - by rewrite bool_decide_eq_true_2.
  - case_bool_decide as E; simpl.
    + by rewrite bool_decide_eq_true_2.
    + by rewrite bool_decide_eq_false_2.
Qed.

Lemma Map_get_set_ne (m : TxMap) k v k' :
  k ≠ k' → Map_get (Map_set m k v) k' = Map_get m k'.
Proof.
  intros Hne. induction m as [ | [k0 v0] m IH]; simpl.
  - by rewrite bool_decide_eq_false_2.
  - case_bool_decide as E; simpl.
    + subst k0. by rewrite !bool_decide_eq_false_2.
    + by rewrite IH.
Qed.

Lemma Map_get_delete_ne (m : TxMap) k k' :
  k ≠ k' → Map_get (Map_delete m k) k' = Map_get m k'.
Proof.
  intros Hne. induction m as [ | [k0 v0] m IH]; simpl; [done | ].
  case_bool_decide as E; simpl.
  - subst k0. by rewrite bool_decide_eq_false_2.
  - by rewrite IH.
Qed.

Lemma Map_get_None (m : TxMap) k : Map_get m k = None ↔ k ∉ Map_keys m.
Proof.
  induction m as [ | [k0 v0] m IH]; simpl.
  - split; [ | done]. intros _ H. by apply elem_of_nil in H.
  - case_bool_decide as E.
    + subst. split; [done | ]. intros H. exfalso. apply H. apply list_elem_of_here.
    + rewrite IH. unfold Map_keys. simpl. rewrite not_elem_of_cons.
      split; [by intros H; split; [congruence | ] | by intros [_ H]].
Qed.

Lemma Map_get_elem (m : TxMap) k v : Map_get m k = Some v → (k, v) ∈ m.
Proof.
  induction m as [ | [k0 v0] m IH]; simpl; [done | ].
  case_bool_decide as E.
  - intros [= ->]. subst. apply list_elem_of_here.
  - intros H. apply list_elem_of_further. by apply IH.
Qed.


Lemma Map_get_delete_eq (m : TxMap) k :
  NoDup (Map_keys m) → Map_get (Map_delete m k) k = None.
Proof.
  induction m as [ | [k0 v0] m IH]; simpl; intros Hnd; [done | ].
  apply NoDup_cons in Hnd as [Hfresh Hnd].
  case_bool_decide as E; simpl.
  - subst. by apply Map_get_None.
  - rewrite bool_decide_eq_false_2 by done. by apply IH.
Qed.

Lemma Map_keys_set_has (m : TxMap) k v :
  Map_get m k ≠ None → Map_keys (Map_set m k v) = Map_keys m.
Proof.
  induction m as [ | [k0 v0] m IH]; simpl; [done | ].
  case_bool_decide as E; simpl; intros H.
  - by subst.
  - unfold Map_keys in *. simpl. by rewrite IH.
Qed.

Lemma Map_keys_set_new (m : TxMap) k v :
  Map_get m k = None → Map_keys (Map_set m k v) = Map_keys m ++ [k].
Proof.
  induction m as [ | [k0 v0] m IH]; simpl; [done | ].
  case_bool_decide as E; simpl; intros H; [done | ].
  unfold Map_keys in *. simpl. by rewrite IH.
Qed.

Lemma Map_delete_sublist (m : TxMap) k : sublist (Map_delete m k) m.
Proof.
  induction m as [ | [k0 v0] m IH]; simpl; [done | ].
  case_bool_decide; [by apply sublist_cons | by apply sublist_skip].
Qed.

Lemma Map_keys_delete_NoDup (m : TxMap) k :
  NoDup (Map_keys m) → NoDup (Map_keys (Map_delete m k)).
Proof.
  intros Hnd. eapply sublist_NoDup; [exact Hnd | ].
  unfold Map_keys. apply fmap_sublist, Map_delete_sublist.
Qed.

Lemma Map_set_elem (m : TxMap) k v k' v' :
  (k', v') ∈ Map_set m k v → (k', v') = (k, v) ∨ (k', v') ∈ m.
Proof.
  induction m as [ | [k0 v0] m IH]; simpl.
  - intros H. apply list_elem_of_singleton in H. by left.
  - case_bool_decide as E.
    + intros H. apply elem_of_cons in H as [H | H]; [by left | ].
      right. by apply list_elem_of_further.
    + intros H. apply elem_of_cons in H as [H | H].
      * right. rewrite H. apply list_elem_of_here.
      * destruct (IH H) as [? | ?]; [by left | ].
        right. by apply list_elem_of_further.
Qed.

Lemma Map_delete_elem (m : TxMap) k x : x ∈ Map_delete m k → x ∈ m.
Proof. intros H. eapply elem_of_sublist; [exact H | apply Map_delete_sublist]. Qed.

(** ** The repository only grows *)

Lemma consistent_spec sys : consistent sys = true ↔ Consistent sys.
Proof.
  unfold consistent. rewrite !andb_true_iff, !bool_decide_eq_true. split.
  - intros [[[H1 H2] H3] H4]. by constructor.
  - intros [[H1 H2] H3 H4]. done.
Qed.

Lemma extends_refl st : extends st st.
Proof. by split. Qed.

Lemma extends_trans st1 st2 st3 : extends st1 st2 → extends st2 st3 → extends st1 st3.
Proof. intros [H1 H2] [H3 H4]. split; auto. Qed.

Lemma extends_same_repo st st' :
  HEAD st' = HEAD st → objects st' = objects st → extends st st'.
Proof.
  intros HH HO. split.
  - intros h. by rewrite HO.
  - unfold repo_ok. by rewrite HH, HO.
Qed.

Lemma extends_saveCollection st collection records env :
  extends st (saveCollection st collection records env).
Proof.
  destruct (HEAD_saveCollection st collection records env) as [HH HO].
  by apply extends_same_repo.
Qed.

Lemma extends_commitChanges st message fault :
  extends st (commitChanges st message fault).
Proof.
  unfold commitChanges. destruct fault; [apply extends_refl | ].
  destruct (nothing_to_commit st); [apply extends_refl | ].
  split; simpl.
  - intros h Hh. by apply list_elem_of_further.
  - intros [_ Hne]. split.
    + right. apply list_elem_of_here.
    + by constructor.
Qed.

Lemma extends_createRecord st collection data env :
  extends st (createRecord st collection data env).1.
Proof.
  unfold createRecord. simpl.
  eapply extends_trans; [apply extends_saveCollection | apply extends_commitChanges].
Qed.

Lemma extends_updateRecord st collection id data env :
  extends st (updateRecord st collection id data env).1.
Proof.
  unfold updateRecord.
  destruct (findIndex _ _); simpl; [ | apply extends_refl].
  eapply extends_trans; [apply extends_saveCollection | apply extends_commitChanges].
Qed.

Lemma extends_deleteRecord st collection id env :
  extends st (deleteRecord st collection id env).1.
Proof.
  unfold deleteRecord.
  destruct (findIndex _ _); simpl; [ | apply extends_refl].
  eapply extends_trans; [apply extends_saveCollection | apply extends_commitChanges].
Qed.

Lemma revertToCommit_cases st commitHash fault :
  (∃ c rest,
      commitHash = c :: rest ∧ fault = None ∧ commitHash ∈ objects st
      ∧ revertToCommit st commitHash fault
        = ({| worktree := c_tree c; HEAD := commitHash; objects := objects st |}, Ok true))
  ∨ (∃ e, revertToCommit st commitHash fault = (st, Err e)
          ∧ (fault ≠ None ∨ commitHash = [] ∨ commitHash ∉ objects st)).
Proof.
  unfold revertToCommit. destruct fault as [detail | ].
  - right. eexists. split; [done | by left].
  - destruct commitHash as [ | c rest].
    + right. eexists. split; [done | by right; left].
    + case_bool_decide as Hin.
      * left. by exists c, rest.
      * right. eexists. split; [done | by right; right].
Qed.

Lemma extends_revertToCommit st commitHash fault :
  extends st (revertToCommit st commitHash fault).1.
Proof.
  destruct (revertToCommit_cases st commitHash fault)
    as [(c & rest & -> & _ & Hin & ->) | (e & -> & _)]; [ | apply extends_refl].
  split; simpl; [done | ]. intros [_ Hne]. split; [by right | done].
Qed.

Lemma extends_dispatch st operation args env :
  extends st (dispatch st operation args env).1.
Proof.
  unfold dispatch.
  repeat case_bool_decide; destruct args;
    first [ apply extends_createRecord | apply extends_updateRecord
          | apply extends_deleteRecord | apply extends_refl ].
Qed.

Lemma checkpoints_extend (st st' : Store) (m : TxMap) :
  extends st st' →
  Forall (λ kv, checkpointHash kv.2 ∈ objects st) m →
  Forall (λ kv, checkpointHash kv.2 ∈ objects st') m.
Proof.
  intros [Hsub _] Hm. eapply Forall_impl; [exact Hm | ]. intros kv. apply Hsub.
Qed.

Lemma Forall_Map_set (P : string * Transaction → Prop) (m : TxMap) k v :
  Forall P m → P (k, v) → Forall P (Map_set m k v).
Proof.
  rewrite !Forall_forall. intros Hm Hkv [k' v'] Hin.
  apply Map_set_elem in Hin as [-> | Hin]; auto.
Qed.

Lemma Forall_Map_delete (P : string * Transaction → Prop) (m : TxMap) k :
  Forall P m → Forall P (Map_delete m k).
Proof.
  rewrite !Forall_forall. intros Hm x Hin. apply Hm. by eapply Map_delete_elem.
Qed.

Lemma Map_get_checkpoint (st : Store) (m : TxMap) k t :
  Forall (λ kv, checkpointHash kv.2 ∈ objects st) m →
  Map_get m k = Some t → checkpointHash t ∈ objects st.
Proof.
  rewrite Forall_forall. intros Hm Hget.
  apply (Hm (k, t)). by apply Map_get_elem.
Qed.

(** ** Case analyses of the coordinator's methods *)

Lemma rollbackTransaction_cases sys id env :
  (∃ t c rest,
      Map_get (activeTransactions sys) id = Some t
      ∧ status t = Active
      ∧ reset_fault env = None
      ∧ checkpointHash t = c :: rest
      ∧ checkpointHash t ∈ objects (db sys)
      ∧ rollbackTransaction sys id env
        = ({| db := {| worktree := c_tree c;
                       HEAD := checkpointHash t;
                       objects := objects (db sys) |};
              activeTransactions := Map_delete (activeTransactions sys) id |},
           Ok (close_transaction t RolledBack (now_ms env) (finalCommitHash t))))
  ∨ (∃ e,
      rollbackTransaction sys id env = (sys, Err e)
      ∧ (Map_get (activeTransactions sys) id = None
         ∨ ∃ t, Map_get (activeTransactions sys) id = Some t
                ∧ (status t ≠ Active ∨ reset_fault env ≠ None
                   ∨ checkpointHash t = [] ∨ checkpointHash t ∉ objects (db sys)))).
Proof.
  unfold rollbackTransaction.
  destruct (Map_get (activeTransactions sys) id) as [t | ] eqn:Hget.
  - destruct (status t) eqn:Hstatus.
    + destruct (revertToCommit_cases (db sys) (checkpointHash t) (reset_fault env))
        as [(c & rest & Hc & Hfault & Hin & ->) | (e & -> & Hwhy)].
      * left. exists t, c, rest. rewrite <- Hc. done.
      * right. exists e. split; [done | ]. right. exists t. split; [done | ].
        by right.
    + right. eexists. split; [done | ]. right. exists t. split; [done | ].
      left. congruence.
    + right. eexists. split; [done | ]. right. exists t. split; [done | ].
      left. congruence.
  - right. eexists. split; [done | by left].
Qed.

Lemma executeInTransaction_active sys id kind arguments env t :
  Map_get (activeTransactions sys) id = Some t →
  status t = Active →
  ∃ entry,
    executeInTransaction sys id kind arguments env
    = ({| db := (dispatch (db sys) kind arguments (store_env env)).1;
          activeTransactions :=
            Map_set (activeTransactions sys) id (push_operation t entry) |},
       (dispatch (db sys) kind arguments (store_env env)).2)
    ∧ operation entry = kind
    ∧ args entry = arguments
    ∧ match (dispatch (db sys) kind arguments (store_env env)).2 with
      | Ok result =>
          op_status entry = Completed ∧ op_result entry = Some result
          ∧ op_error entry = None ∧ timestamp entry = now_ms env
      | Err e =>
          op_status entry = Failed ∧ op_error entry = Some e
          ∧ op_result entry = None ∧ timestamp entry = catch_now_ms env
      end.
Proof.
  intros Hget Hstatus. unfold executeInTransaction. rewrite Hget, Hstatus.
  destruct (dispatch (db sys) kind arguments (store_env env)) as [db' [result | e]];
    simpl; eexists; (split; [reflexivity | ]); done.
Qed.

Lemma executeInTransaction_rejected sys id operation args env :
  (Map_get (activeTransactions sys) id = None
   ∨ ∃ t, Map_get (activeTransactions sys) id = Some t ∧ status t ≠ Active) →
  ∃ e, executeInTransaction sys id operation args env = (sys, Err e).
Proof.
  unfold executeInTransaction. intros [-> | (t & -> & Hstatus)]; [by eexists | ].
  destruct (status t); [done | by eexists ..].
Qed.

Lemma beginTransaction_cases sys transactionId env :
  let id := chosen_id transactionId env in
  (Map_get (activeTransactions sys) id ≠ None
   ∧ beginTransaction sys transactionId env = (sys, Err (TransactionAlreadyActive id)))
  ∨ (Map_get (activeTransactions sys) id = None
     ∧ ∃ e, getCurrentCommitHash (db sys) (rev_parse_fault env) = Err e
            ∧ beginTransaction sys transactionId env = (sys, Err e))
  ∨ (Map_get (activeTransactions sys) id = None
     ∧ rev_parse_fault env = None
     ∧ HEAD (db sys) ≠ []
     ∧ beginTransaction sys transactionId env
       = ({| db := db sys;
             activeTransactions :=
               Map_set (activeTransactions sys) id
                 {| tx_id := id; startTime := now_ms env;
                    checkpointHash := HEAD (db sys); operations := [];
                    status := Active; endTime := None; finalCommitHash := None |} |},
          Ok {| tx_id := id; startTime := now_ms env;
                checkpointHash := HEAD (db sys); operations := [];
                status := Active; endTime := None; finalCommitHash := None |})).
Proof.
  intros id. unfold beginTransaction. fold id.
  unfold Map_has. destruct (Map_get (activeTransactions sys) id) eqn:Hget.
  - left. done.
  - right. unfold getCurrentCommitHash.
    destruct (rev_parse_fault env) as [detail | ] eqn:Hfault.
    + left. split; [done | ]. by eexists.
    + destruct (HEAD (db sys)) as [ | c rest] eqn:Hhead.
      * left. split; [done | ]. by eexists.
      * right. done.
Qed.

Lemma commitTransaction_cases sys id env :
  (∃ e, commitTransaction sys id env = (sys, Err e)
        ∧ (Map_get (activeTransactions sys) id = None
           ∨ ∃ t, Map_get (activeTransactions sys) id = Some t ∧ status t ≠ Active))
  ∨ (∃ t e,
        Map_get (activeTransactions sys) id = Some t ∧ status t = Active
        ∧ getCurrentCommitHash (db sys) (rev_parse_fault env) = Err e
        ∧ commitTransaction sys id env
          = ({| db := db sys;
                activeTransactions :=
                  Map_set (activeTransactions sys) id
                    (close_transaction t Committed (now_ms env) (finalCommitHash t)) |},
             Err e))
  ∨ (∃ t,
        Map_get (activeTransactions sys) id = Some t ∧ status t = Active
        ∧ commitTransaction sys id env
          = ({| db := commitChanges (db sys)
                        (TransactionCommitted id (length (operations t)))
                        (git_fault (store_env env));
                activeTransactions := Map_delete (activeTransactions sys) id |},
             Ok (close_transaction t Committed (now_ms env) (Some (HEAD (db sys)))))).
Proof.
  unfold commitTransaction.
  destruct (Map_get (activeTransactions sys) id) as [t | ] eqn:Hget.
  - destruct (status t) eqn:Hstatus.
    + destruct (getCurrentCommitHash (db sys) (rev_parse_fault env)) as [h | e] eqn:Hh.
      * right. right. exists t. repeat split; try done.
        unfold getCurrentCommitHash in Hh.
        destruct (rev_parse_fault env); [done | ].
        destruct (HEAD (db sys)); [done | ]. by injection Hh as <-.
      * right. left. by exists t, e.
    + left. eexists. split; [done | ]. right. exists t. split; [done | congruence].
    + left. eexists. split; [done | ]. right. exists t. split; [done | congruence].
  - left. eexists. split; [done | by left].
Qed.

(** ** Consistency is kept by every call *)

Lemma Consistent_intro sys st' m' :
  Consistent sys →
  extends (db sys) st' →
  Forall (λ kv, checkpointHash kv.2 ∈ objects st') m' →
  NoDup (Map_keys m') →
  Consistent {| db := st'; activeTransactions := m' |}.
Proof. intros [Hrepo _ _] [_ Hok] Hcp Hkeys. constructor; simpl; auto. Qed.

Lemma Consistent_on_db sys st' :
  Consistent sys → extends (db sys) st' → Consistent (on_db sys st').
Proof.
  intros Hc Hext. apply (Consistent_intro sys).
  - exact Hc.
  - exact Hext.
  - eapply checkpoints_extend; [exact Hext | apply (consistent_checkpoints _ Hc)].
  - apply (consistent_keys _ Hc).
Qed.

Lemma Consistent_delete sys st' id :
  Consistent sys → extends (db sys) st' →
  Consistent {| db := st'; activeTransactions := Map_delete (activeTransactions sys) id |}.
Proof.
  intros Hc Hext. apply (Consistent_intro sys).
  - exact Hc.
  - exact Hext.
  - apply Forall_Map_delete.
    eapply checkpoints_extend; [exact Hext | apply (consistent_checkpoints _ Hc)].
  - apply Map_keys_delete_NoDup, (consistent_keys _ Hc).
Qed.

Lemma Consistent_replace sys st' id t t' :
  Consistent sys → extends (db sys) st' →
  Map_get (activeTransactions sys) id = Some t →
  checkpointHash t' = checkpointHash t →
  Consistent {| db := st'; activeTransactions := Map_set (activeTransactions sys) id t' |}.
Proof.
  intros Hc Hext Hget Hcp. apply (Consistent_intro sys).
  - exact Hc.
  - exact Hext.
  - apply Forall_Map_set.
    + eapply checkpoints_extend; [exact Hext | apply (consistent_checkpoints _ Hc)].
    + simpl. rewrite Hcp. apply Hext.
      eapply Map_get_checkpoint; [apply (consistent_checkpoints _ Hc) | exact Hget].
  - rewrite Map_keys_set_has; [apply (consistent_keys _ Hc) | congruence].
Qed.

Lemma beginTransaction_Consistent sys transactionId env :
  Consistent sys → Consistent (beginTransaction sys transactionId env).1.
Proof.
  intros Hc.
  destruct (beginTransaction_cases sys transactionId env)
    as [[_ ->] | [(_ & e & _ & ->) | (Hnew & _ & Hhead & ->)]]; try done.
  simpl. apply (Consistent_intro sys).
  - exact Hc.
  - apply extends_refl.
  - apply Forall_Map_set; [apply (consistent_checkpoints _ Hc) | ]. simpl.
    destruct (consistent_repo _ Hc) as [[Hnil | Hin] _]; done.
  - rewrite Map_keys_set_new by done. apply NoDup_app. repeat split.
    + apply (consistent_keys _ Hc).
    + intros k Hk Hin. apply list_elem_of_singleton in Hin. subst k.
      by apply Map_get_None in Hnew.
    + apply NoDup_singleton.
Qed.

Lemma executeInTransaction_Consistent sys id kind arguments env :
  Consistent sys → Consistent (executeInTransaction sys id kind arguments env).1.
Proof.
  intros Hc.
  destruct (Map_get (activeTransactions sys) id) as [t | ] eqn:Hget.
  - destruct (decide (status t = Active)) as [Hactive | Hother].
    + destruct (executeInTransaction_active sys id kind arguments env t Hget Hactive)
        as (entry & -> & _).
      simpl.
      eapply Consistent_replace;
        [exact Hc | apply extends_dispatch | exact Hget | reflexivity].
    + destruct (executeInTransaction_rejected sys id kind arguments env) as [e ->];
        [ | done]. right. by exists t.
  - destruct (executeInTransaction_rejected sys id kind arguments env) as [e ->];
      [by left | done].
Qed.

Lemma commitTransaction_Consistent sys id env :
  Consistent sys → Consistent (commitTransaction sys id env).1.
Proof.
  intros Hc.
  destruct (commitTransaction_cases sys id env)
    as [(e & -> & _) | [(t & e & Hget & _ & _ & ->) | (t & Hget & _ & ->)]];
    simpl; try done.
  - eapply Consistent_replace; [exact Hc | apply extends_refl | exact Hget | reflexivity].
  - apply Consistent_delete; [exact Hc | apply extends_commitChanges].
Qed.

Lemma rollbackTransaction_Consistent sys id env :
  Consistent sys → Consistent (rollbackTransaction sys id env).1.
Proof.
  intros Hc.
  destruct (rollbackTransaction_cases sys id env)
    as [(t & c & rest & Hget & _ & Hfault & Hcp & Hin & ->) | (e & -> & _)];
    simpl; try done.
  apply Consistent_delete; [done | ].
  pose proof (extends_revertToCommit (db sys) (checkpointHash t) None) as Hext.
  unfold revertToCommit in Hext. rewrite Hcp in Hext.
  rewrite bool_decide_eq_true_2 in Hext by (by rewrite <- Hcp).
  rewrite Hcp. exact Hext.
Qed.

Lemma rollback_each_Consistent good bad ids envs :
  ∀ sys results,
    Consistent sys → Consistent (rollback_each good bad sys ids envs results).1.
Proof.
  induction ids as [ | id ids IH]; intros sys results Hc; simpl; [done | ].
  pose proof (rollbackTransaction_Consistent sys id (envs id) Hc) as Hc'.
  destruct (rollbackTransaction sys id (envs id)) as [sys' [t | e]]; by apply IH.
Qed.

Lemma step_Consistent sys a : Consistent sys → Consistent (step sys a).
Proof.
  intros Hc.
  destruct a as
    [ collection data env | collection rid data env | collection rid env
    | commitHash fault | transactionId env | transactionId kind arguments env
    | transactionId env | transactionId env | envs | maxAgeMinutes now envs ];
    simpl.
  - apply Consistent_on_db, extends_createRecord; done.
  - apply Consistent_on_db, extends_updateRecord; done.
  - apply Consistent_on_db, extends_deleteRecord; done.
  - apply Consistent_on_db, extends_revertToCommit; done.
  - by apply beginTransaction_Consistent.
  - by apply executeInTransaction_Consistent.
  - by apply commitTransaction_Consistent.
  - by apply rollbackTransaction_Consistent.
  - by apply rollback_each_Consistent.
  - by apply rollback_each_Consistent.
Qed.

Lemma run_Consistent trace : ∀ sys, Consistent sys → Consistent (run sys trace).
Proof.
  induction trace as [ | a trace IH]; intros sys Hc; simpl; [done | ].
  apply IH. by apply step_Consistent.
Qed.

Lemma initialize_Consistent stamp :
  Consistent {| db := initialize stamp; activeTransactions := [] |}.
Proof.
  constructor; simpl.
  - split; [right; apply list_elem_of_here | ]. by repeat constructor.
  - constructor.
  - constructor.
Qed.

(** ** Claims on the transaction coordinator *)

(** C4. [executeInTransaction] on a registered transaction whose status is
    active appends exactly one operation record to that transaction's log,
    whatever the outcome: completed with the result when the store method
    returns, failed with the error when it throws or when the operation kind
    is none of create, update, delete.  The outcome handed to the caller is
    the store's own, so a failure is raised again; no other transaction's
    entry changes. *)
Theorem executeInTransaction_logs sys id kind arguments env t :
  Map_get (activeTransactions sys) id = Some t →
  status t = Active →
  ∃ sys' outcome entry t',
    executeInTransaction sys id kind arguments env = (sys', outcome)
    ∧ (db sys', outcome) = dispatch (db sys) kind arguments (store_env env)
    ∧ Map_get (activeTransactions sys') id = Some t'
    ∧ operations t' = operations t ++ [entry]
    ∧ operation entry = kind
    ∧ args entry = arguments
    ∧ match outcome with
      | Ok result =>
          op_status entry = Completed ∧ op_result entry = Some result
          ∧ op_error entry = None
      | Err e =>
          op_status entry = Failed ∧ op_error entry = Some e
          ∧ op_result entry = None
      end
    ∧ (kind ≠ "create" → kind ≠ "update" → kind ≠ "delete" →
       outcome = Err (UnsupportedOperation kind))
    ∧ (∀ other, other ≠ id →
       Map_get (activeTransactions sys') other = Map_get (activeTransactions sys) other).
Proof.
  intros Hget Hactive.
  destruct (executeInTransaction_active sys id kind arguments env t Hget Hactive)
    as (entry & Hrun & Hkind & Hargs & Houtcome).
  eexists _, _, entry, (push_operation t entry). split; [exact Hrun | ].
  split; [by destruct (dispatch _ _ _ _) | ].
  split; [simpl; apply Map_get_set_eq | ].
  split; [done | ]. split; [done | ]. split; [done | ].
  split; [ | split].
  - destruct (dispatch _ _ _ _).2; tauto.
  - intros H1 H2 H3. unfold dispatch. by rewrite !bool_decide_eq_false_2.
  - intros other Hother. simpl. by apply Map_get_set_ne.
Qed.

Lemma executeInTransaction_logs_witness :
  ∃ sys' t' entry,
    executeInTransaction system_with_T1 "T1" "frobnicate"
      (DeleteArgs "users" (VStr "a")) sample_tx_env
    = (sys', Err (UnsupportedOperation "frobnicate"))
    ∧ Map_get (activeTransactions sys') "T1" = Some t'
    ∧ operations t' = [entry]
    ∧ op_status entry = Failed.
Proof.
  destruct (executeInTransaction_logs system_with_T1 "T1" "frobnicate"
              (DeleteArgs "users" (VStr "a")) sample_tx_env
              (default
                 no_transaction
                 (Map_get (activeTransactions system_with_T1) "T1")))
    as (sys' & outcome & entry & t' & Hrun & _ & Hget & Hlog & _ & _ & Hentry & Hkind & _).
  - reflexivity.
  - reflexivity.
  - rewrite (Hkind ltac:(discriminate) ltac:(discriminate) ltac:(discriminate)) in *.
    exists sys', t', entry. repeat split; [exact Hrun | exact Hget | exact Hlog | ].
    apply Hentry.
Defined.

(** C8. [beginTransaction] never touches the database directory or its
    history.  With an explicit id that is already registered it fails and
    changes nothing.  When it succeeds, the new transaction's checkpoint is
    the [HEAD] of that moment, the transaction is registered under its id,
    and every other entry is as before; it succeeds whenever the id is free
    and [git rev-parse HEAD] answers. *)
Theorem beginTransaction_checkpoint sys transactionId env :
  ∃ sys' outcome,
    beginTransaction sys transactionId env = (sys', outcome)
    ∧ db sys' = db sys
    ∧ (∀ limit, getHistory (db sys') limit = getHistory (db sys) limit)
    ∧ (∀ id, transactionId = Some id → id ≠ EmptyString →
         Map_get (activeTransactions sys) id ≠ None →
         outcome = Err (TransactionAlreadyActive id) ∧ sys' = sys)
    ∧ (∀ t, outcome = Ok t →
         checkpointHash t = HEAD (db sys)
         ∧ HEAD (db sys) ≠ []
         ∧ status t = Active
         ∧ operations t = []
         ∧ Map_get (activeTransactions sys) (tx_id t) = None
         ∧ Map_get (activeTransactions sys') (tx_id t) = Some t
         ∧ ∀ other, other ≠ tx_id t →
             Map_get (activeTransactions sys') other
             = Map_get (activeTransactions sys) other)
    ∧ (Map_get (activeTransactions sys) (chosen_id transactionId env) = None →
       rev_parse_fault env = None → HEAD (db sys) ≠ [] →
       ∃ t, outcome = Ok t ∧ tx_id t = chosen_id transactionId env)
    ∧ (∀ e, outcome = Err e → sys' = sys).
Proof.
  pose proof (beginTransaction_cases sys transactionId env) as Hcases.
  simpl in Hcases.
  destruct Hcases
    as [[Hhas ->] | [(Hnew & e & Hgit & ->) | (Hnew & Hfault & Hhead & ->)]];
    eexists _, _; (split; [reflexivity | ]); simpl.
  - split_and!; try done.
    intros i -> Hi _. simpl. by rewrite bool_decide_eq_false_2.
  - split_and!; try done.
    + intros i -> Hi Hin. simpl in Hnew.
      rewrite bool_decide_eq_false_2 in Hnew by done. done.
    + intros _ Hfault Hhead. unfold getCurrentCommitHash in Hgit.
      rewrite Hfault in Hgit. by destruct (HEAD (db sys)).
  - split_and!; try done.
    + intros i -> Hi Hin. simpl in Hnew.
      rewrite bool_decide_eq_false_2 in Hnew by done. done.
    + intros t [= <-]. simpl. split_and!; try done.
      * apply Map_get_set_eq.
      * intros other Hother. by apply Map_get_set_ne.
    + intros _ _ _. by eexists.
Qed.

Lemma beginTransaction_checkpoint_witness :
  ∃ sys' t,
    beginTransaction sample_system (Some "T1") sample_tx_env = (sys', Ok t)
    ∧ checkpointHash t = HEAD sample_store
    ∧ beginTransaction sys' (Some "T1") sample_tx_env
      = (sys', Err (TransactionAlreadyActive "T1")).
Proof.
  destruct (beginTransaction_checkpoint sample_system (Some "T1") sample_tx_env)
    as (sys' & outcome & Hrun & _ & _ & _ & Hok & Hlive & _).
  destruct Hlive as (t & -> & Hid); [reflexivity | reflexivity | discriminate | ].
  destruct (Hok t eq_refl) as (Hcp & _ & _ & _ & _ & Hreg & _).
  exists sys', t. split; [exact Hrun | ]. split; [exact Hcp | ].
  destruct (beginTransaction_checkpoint sys' (Some "T1") sample_tx_env)
    as (sys'' & outcome' & Hrun' & _ & _ & Hdup & _).
  destruct (Hdup "T1" eq_refl) as [-> ->].
  - discriminate.
  - simpl in Hid. rewrite Hid in Hreg. rewrite Hreg. discriminate.
  - exact Hrun'.
Defined.

(** ** A transaction stays open until it is committed, rolled back or swept *)

Lemma open_at_other_set id C sys st' k v :
  k ≠ id → open_at id C sys →
  open_at id C {| db := st'; activeTransactions := Map_set (activeTransactions sys) k v |}.
Proof.
  intros Hne (t & Hget & Hst & Hcp). exists t. simpl.
  by rewrite Map_get_set_ne.
Qed.

Lemma open_at_other_delete id C sys st' k :
  k ≠ id → open_at id C sys →
  open_at id C {| db := st'; activeTransactions := Map_delete (activeTransactions sys) k |}.
Proof.
  intros Hne (t & Hget & Hst & Hcp). exists t. simpl.
  by rewrite Map_get_delete_ne.
Qed.

Lemma step_open_at sys a id C :
  leaves_open id a = true → open_at id C sys → open_at id C (step sys a).
Proof.
  intros Hleaves Hopen.
  destruct a as
    [ collection data env | collection rid data env | collection rid env
    | commitHash fault | transactionId env | transactionId kind arguments env
    | transactionId env | transactionId env | envs | maxAgeMinutes now envs ];
    simpl in *; try done.
  - pose proof (beginTransaction_cases sys transactionId env) as Hcases.
    simpl in Hcases.
    destruct Hcases as [[_ ->] | [(_ & e & _ & ->) | (Hnew & _ & _ & ->)]]; try done.
    simpl. apply open_at_other_set; [ | done].
    intros Heq. destruct Hopen as (t & Hget & _). congruence.
  - destruct (Map_get (activeTransactions sys) transactionId) as [t0 | ] eqn:Hget.
    + destruct (decide (status t0 = Active)) as [Hactive | Hother].
      * destruct (executeInTransaction_active sys transactionId kind arguments env
                    t0 Hget Hactive) as (entry & -> & _).
        simpl. destruct (decide (transactionId = id)) as [-> | Hne].
        -- destruct Hopen as (t & Hget' & Hst & Hcp).
           exists (push_operation t0 entry). simpl. rewrite Map_get_set_eq.
           split; [done | ]. rewrite Hget in Hget'. by injection Hget' as ->.
        -- by apply open_at_other_set.
      * destruct (executeInTransaction_rejected sys transactionId kind arguments env)
          as [e ->]; [ | done]. right. by exists t0.
    + destruct (executeInTransaction_rejected sys transactionId kind arguments env)
        as [e ->]; [by left | done].
  - apply negb_true_iff, bool_decide_eq_false in Hleaves.
    destruct (commitTransaction_cases sys transactionId env)
      as [(e & -> & _) | [(t & e & _ & _ & _ & ->) | (t & _ & _ & ->)]]; simpl.
    + done.
    + by apply open_at_other_set.
    + by apply open_at_other_delete.
  - apply negb_true_iff, bool_decide_eq_false in Hleaves.
    destruct (rollbackTransaction_cases sys transactionId env)
      as [(t & c & rest & _ & _ & _ & _ & _ & ->) | (e & -> & _)]; simpl.
    + by apply open_at_other_delete.
    + done.
Qed.

Lemma rollbackTransaction_extends sys id env :
  extends (db sys) (db (rollbackTransaction sys id env).1).
Proof.
  destruct (rollbackTransaction_cases sys id env)
    as [(t & c & rest & _ & _ & _ & Hcp & Hin & ->) | (e & -> & _)];
    simpl; [ | apply extends_refl].
  split; simpl; [done | ]. intros [_ Hne]. split; [by right | done].
Qed.

Lemma rollback_each_extends good bad ids envs :
  ∀ sys results,
    extends (db sys) (db (rollback_each good bad sys ids envs results).1).
Proof.
  induction ids as [ | id ids IH]; intros sys results; simpl; [apply extends_refl | ].
  pose proof (rollbackTransaction_extends sys id (envs id)) as Hext.
  destruct (rollbackTransaction sys id (envs id)) as [sys' [t | e]];
    (eapply extends_trans; [exact Hext | apply IH]).
Qed.

Lemma step_extends sys a : extends (db sys) (db (step sys a)).
Proof.
  destruct a as
    [ collection data env | collection rid data env | collection rid env
    | commitHash fault | transactionId env | transactionId kind arguments env
    | transactionId env | transactionId env | envs | maxAgeMinutes now envs ];
    simpl.
  - apply extends_createRecord.
  - apply extends_updateRecord.
  - apply extends_deleteRecord.
  - apply extends_revertToCommit.
  - pose proof (beginTransaction_cases sys transactionId env) as Hcases.
    simpl in Hcases.
    destruct Hcases as [[_ ->] | [(_ & e & _ & ->) | (_ & _ & _ & ->)]];
      apply extends_refl.
  - unfold executeInTransaction.
    destruct (Map_get _ _) as [t | ]; [ | apply extends_refl].
    destruct (status t); try apply extends_refl.
    pose proof (extends_dispatch (db sys) kind arguments (store_env env)) as Hext.
    by destruct (dispatch _ _ _ _).
  - destruct (commitTransaction_cases sys transactionId env)
      as [(e & -> & _) | [(t & e & _ & _ & _ & ->) | (t & _ & _ & ->)]]; simpl;
      auto using extends_refl, extends_commitChanges.
  - apply rollbackTransaction_extends.
  - apply rollback_each_extends.
  - apply rollback_each_extends.
Qed.

Lemma run_open_at trace id C :
  ∀ sys, forallb (leaves_open id) trace = true → open_at id C sys →
         open_at id C (run sys trace).
Proof.
  induction trace as [ | a trace IH]; intros sys Hall Hopen; simpl; [done | ].
  simpl in Hall. apply andb_true_iff in Hall as [Ha Hall].
  apply IH; [done | ]. by apply step_open_at.
Qed.

Lemma run_extends trace : ∀ sys, extends (db sys) (db (run sys trace)).
Proof.
  induction trace as [ | a trace IH]; intros sys; simpl; [apply extends_refl | ].
  eapply extends_trans; [apply step_extends | apply IH].
Qed.

(** C1. A transaction begins in a consistent system whose directory is
    clean (every file is in the commit at [HEAD]).  Any calls follow that do
    not themselves end it (store calls inside or outside transactions, other
    transactions beginning, committing or rolling back, direct reverts),
    each capturing the directory without a git failure and naming its
    collection by a plain file name, and its rollback is asked with
    [git reset] working.  Then the rollback succeeds; the whole directory,
    hence every collection, is the tree of the checkpoint commit, which is
    the directory at begin; [HEAD] and the history read from it are those of
    the moment of begin, so no commit made since is in the log; and the
    transaction is no longer registered. *)
Theorem rollback_restores_checkpoint sys transactionId benv sys1 t trace renv :
  consistent sys = true →
  clean (db sys) = true →
  beginTransaction sys transactionId benv = (sys1, Ok t) →
  forallb (leaves_open (tx_id t)) trace = true →
  forallb captures trace = true →
  forallb plain_names trace = true →
  reset_fault renv = None →
  ∃ sys3 t' c rest,
    rollbackTransaction (run sys1 trace) (tx_id t) renv = (sys3, Ok t')
    ∧ status t' = RolledBack
    ∧ checkpointHash t = HEAD (db sys)
    ∧ HEAD (db sys) = c :: rest
    ∧ worktree (db sys3) = c_tree c
    ∧ (∀ collection,
         getCollection (db sys3) collection = default [] (files (c_tree c) !! collection))
    ∧ HEAD (db sys3) = HEAD (db sys)
    ∧ (∀ limit, getHistory (db sys3) limit = getHistory (db sys) limit)
    ∧ worktree (db sys3) = worktree (db sys)
    ∧ (∀ collection,
         getCollection (db sys3) collection = getCollection (db sys) collection)
    ∧ Map_get (activeTransactions sys3) (tx_id t) = None.
Proof.
  intros Hc%consistent_spec Hclean Hbegin Htrace _ _ Hfault.
  pose proof (beginTransaction_Consistent sys transactionId benv Hc) as Hc1.
  pose proof (beginTransaction_cases sys transactionId benv) as Hcases.
  simpl in Hcases. rewrite Hbegin in Hcases, Hc1. simpl in Hc1.
  destruct Hcases as [[_ [=]] | [(_ & e & _ & [=]) | (Hnew & _ & Hhead & [= -> ->])]].
  simpl in *.
  set (id := chosen_id transactionId benv) in *.
  assert (HEAD (db sys) ∈ objects (db sys)) as Hin.
  { destruct (consistent_repo _ Hc) as [[Hnil | Hin] _]; done. }
  assert (open_at id (HEAD (db sys)) (run
            {| db := db sys;
               activeTransactions :=
                 Map_set (activeTransactions sys) id
                   {| tx_id := id; startTime := now_ms benv;
                      checkpointHash := HEAD (db sys); operations := [];
                      status := Active; endTime := None; finalCommitHash := None |} |}
            trace)) as (t2 & Hget2 & Hactive2 & Hcp2).
  { apply run_open_at; [done | ]. eexists. simpl. rewrite Map_get_set_eq. done. }
  match goal with |- context [run ?s trace] => set (sys1 := s) in * end.
  pose proof (run_Consistent trace sys1 Hc1) as Hc2.
  pose proof (proj1 (run_extends trace sys1) _ Hin) as Hin2.
  destruct (rollbackTransaction_cases (run sys1 trace) id renv)
    as [(t3 & c & rest & Hget3 & _ & _ & Hcp3 & _ & ->)
       | (e & _ & [Hnone | (t3 & Hget3 & Hwhy)])].
  - rewrite Hget2 in Hget3. injection Hget3 as <-.
    rewrite Hcp2 in Hcp3. eexists _, _, c, rest.
    split; [reflexivity | ]. simpl.
    unfold clean, nothing_to_commit in Hclean.
    rewrite Hcp3 in Hclean. apply bool_decide_eq_true in Hclean.
    split_and!; try done.
    + intros limit. unfold getHistory. simpl. by rewrite Hcp2.
    + intros collection. unfold getCollection. simpl. by rewrite Hclean.
    + apply Map_get_delete_eq, (consistent_keys _ Hc2).
  - congruence.
  - rewrite Hget2 in Hget3. injection Hget3 as <-.
    rewrite Hcp2 in Hwhy. destruct Hwhy as [? | [? | [? | ?]]]; done.
Qed.

Lemma rollback_restores_checkpoint_witness :
  ∃ sys3 t',
    rollbackTransaction
      (run (beginTransaction system_before_T1 (Some "T1") sample_tx_env).1 trace_in_T1)
      "T1" sample_tx_env
    = (sys3, Ok t')
    ∧ (∀ collection,
         getCollection (db sys3) collection = getCollection store_with_a collection)
    ∧ HEAD (db sys3) = HEAD store_with_a.
Proof.
  destruct (rollback_restores_checkpoint system_before_T1 (Some "T1") sample_tx_env
              (beginTransaction system_before_T1 (Some "T1") sample_tx_env).1
              (default
                 no_transaction
                 (Map_get
                    (activeTransactions
                       (beginTransaction system_before_T1 (Some "T1") sample_tx_env).1)
                    "T1"))
              trace_in_T1 sample_tx_env)
    as (sys3 & t' & c & rest & Hrun & _ & _ & _ & _ & _ & Hhead & _ & _ & Hsame & _).
  - reflexivity.
  - reflexivity.
  - reflexivity.
  - reflexivity.
  - reflexivity.
  - reflexivity.
  - reflexivity.
  - exists sys3, t'. split; [exact Hrun | ]. split; [exact Hsame | exact Hhead].
Defined.

(** ** The two sweeps *)



Lemma rollback_each_cons good bad sys id ids envs results :
  rollback_each good bad sys (id :: ids) envs results
  = rollback_each good bad (rollbackTransaction sys id (envs id)).1 ids envs
      (results ++ [attempt_alone good bad sys envs id]).
Proof.
  simpl. unfold attempt_alone.
  by destruct (rollbackTransaction sys id (envs id)) as [sys' [t | e]].
Qed.


Lemma rollbackTransaction_healthy sys id env t :
  Consistent sys →
  Map_get (activeTransactions sys) id = Some t →
  status t = Active →
  reset_fault env = None →
  (rollbackTransaction sys id env).2
  = Ok (close_transaction t RolledBack (now_ms env) (finalCommitHash t)).
Proof.
  intros Hc Hget Hactive Hfault.
  pose proof (Map_get_checkpoint _ _ _ _ (consistent_checkpoints _ Hc) Hget) as Hin.
  destruct (consistent_repo _ Hc) as [_ Hne]. rewrite Forall_forall in Hne.
  destruct (rollbackTransaction_cases sys id env)
    as [(t' & c & rest & Hget' & _ & _ & _ & _ & ->)
       | (e & _ & [Hnone | (t' & Hget' & Hwhy)])].
  - simpl. rewrite Hget in Hget'. by injection Hget' as <-.
  - congruence.
  - rewrite Hget in Hget'. injection Hget' as <-.
    destruct Hwhy as [? | [? | [Hnil | ?]]]; try done.
    by apply Hne in Hin.
Qed.







(** * Further properties of the store *)

Lemma strict_equal_primitive_r (a : option Value) (v : Value) :
  strict_equal a (Some v) = true → primitive v = true.
Proof. destruct a as [[ | | | | | ] | ], v; simpl; done. Qed.

Lemma findIndex_first {A : Type} (p : A → bool) (l : list A) (i : nat) (x : A) :
  l !! i = Some x → p x = true →
  (∀ j y, (j < i)%nat → l !! j = Some y → p y = false) →
  findIndex p l = Some i.
Proof.
  revert i. induction l as [ | a l IH]; intros i Hx Hp Hbefore; [done | ].
  destruct i as [ | i]; simpl in *.
  - injection Hx as ->. by rewrite Hp.
  - assert (p a = false) as -> by (apply (Hbefore 0%nat a); [lia | done]).
    rewrite (IH i Hx Hp); [done | ].
    intros j y Hj Hy. apply (Hbefore (S j) y); [lia | done].
Qed.

Lemma deleteRecord_found st collection id env index :
  findIndex (has_id id) (getCollection st collection) = Some index →
  ∃ st' removed,
    getCollection st collection !! index = Some removed
    ∧ removed !! "id" = Some id
    ∧ (∀ j r, (j < index)%nat → getCollection st collection !! j = Some r →
              has_id id r = false)
    ∧ deleteRecord st collection id env = (st', Ok removed)
    ∧ ∀ other,
        getCollection st' other
        = if bool_decide (other = collection)
          then delete index (getCollection st collection)
          else getCollection st other.
Proof.
  intros Hfind. unfold deleteRecord. rewrite Hfind.
  destruct (findIndex_Some _ _ _ Hfind) as (removed & Hrem & Hid & Hbefore).
  rewrite Hrem. simpl. eexists _, removed. repeat split; try done.
  - by apply has_id_eq.
  - intros other. apply getCollection_saved.
Qed.

Lemma deleteRecord_missing st collection id env :
  findIndex (has_id id) (getCollection st collection) = None →
  deleteRecord st collection id env = (st, Err (RecordNotFound id collection)).
Proof. intros Hfind. unfold deleteRecord. by rewrite Hfind. Qed.



(** X2. After [updateRecord] succeeds, [getRecord] on the same id returns
    exactly the record [updateRecord] returned, duplicates of the id or
    not: the first record with the id is the one that was replaced. *)
Theorem update_then_get st collection id data env st' merged :
  updateRecord st collection id data env = (st', Ok merged) →
  getRecord st' collection id = Some merged.
Proof.
  intros Hrun.
  destruct (findIndex (has_id id) (getCollection st collection)) as [index | ] eqn:E.
  - destruct (updateRecord_found st collection id data env index E)
      as (st0 & old & Hold & Hid & Hbefore & Hrun0 & Hcoll).
    rewrite Hrun in Hrun0. injection Hrun0 as <- ->.
    unfold getRecord. rewrite find_findIndex, Hcoll, bool_decide_eq_true_2 by done.
    pose proof (lookup_lt_Some _ _ _ Hold) as Hlt.
    destruct (findIndex_Some _ _ _ E) as (old' & Hold' & Hhas & _).
    rewrite Hold in Hold'. injection Hold' as <-.
    erewrite findIndex_first.
    + simpl. by apply list_lookup_insert_eq.
    + by apply list_lookup_insert_eq.
    + apply has_id_primitive; [ | by rewrite merged_id].
      by eapply strict_equal_primitive_r.
    + intros j y Hj Hy. rewrite list_lookup_insert_ne in Hy by lia.
      by apply (Hbefore j).
  - rewrite (updateRecord_missing _ _ _ _ _ E) in Hrun. done.
Qed.

Lemma update_then_get_witness :
  ∃ st' merged,
    updateRecord store_with_a "users" (VStr "a") {[ "age" := VNum 31 ]} sample_env
    = (st', Ok merged)
    ∧ getRecord st' "users" (VStr "a") = Some merged.
Proof.
  eexists _, _. split; [reflexivity | ].
  apply (update_then_get store_with_a "users" (VStr "a") {[ "age" := VNum 31 ]}
           sample_env).
  reflexivity.
Defined.

Lemma ids_of_lookup (l : list Record) (i : nat) (r : Record) :
  l !! i = Some r → ids_of l !! i = Some (r !! "id").
Proof. intros H. unfold ids_of. by rewrite list_lookup_fmap, H. Qed.

(** X3. In a collection whose ids are pairwise distinct, a successful
    [deleteRecord] leaves no record with that id: [getRecord] then finds
    nothing, and a second [deleteRecord] fails with the not-found error. *)
Theorem delete_then_get st collection id env env' st' removed :
  NoDup (ids_of (getCollection st collection)) →
  deleteRecord st collection id env = (st', Ok removed) →
  getRecord st' collection id = None
  ∧ deleteRecord st' collection id env' = (st', Err (RecordNotFound id collection)).
Proof.
  intros Hnodup Hrun.
  destruct (findIndex (has_id id) (getCollection st collection)) as [index | ] eqn:E.
  - destruct (deleteRecord_found st collection id env index E)
      as (st0 & removed0 & Hrem & Hid & _ & Hrun0 & Hcoll).
    rewrite Hrun in Hrun0. injection Hrun0 as <- <-.
    assert (findIndex (has_id id) (getCollection st' collection) = None) as Hgone.
    { apply findIndex_None. intros r Hr.
      rewrite Hcoll, bool_decide_eq_true_2 in Hr by done.
      apply list_elem_of_lookup in Hr as [j Hj].
      destruct (has_id id r) eqn:Hhas; [ | done]. apply has_id_eq in Hhas.
      assert (∃ k, k ≠ index ∧ getCollection st collection !! k = Some r)
        as (k & Hk & Hlook).
      { destruct (decide (j < index)%nat) as [Hlt | Hge].
        - rewrite list_lookup_delete_lt in Hj by done. exists j. split; [lia | done].
        - rewrite list_lookup_delete_ge in Hj by lia. exists (S j). split; [lia | done]. }
      exfalso. apply Hk.
      apply (NoDup_lookup _ _ _ (Some id) Hnodup).
      - rewrite (ids_of_lookup _ _ _ Hlook). by rewrite Hhas.
      - rewrite (ids_of_lookup _ _ _ Hrem). by rewrite Hid. }
    split.
    + unfold getRecord. by rewrite find_findIndex, Hgone.
    + by apply deleteRecord_missing.
  - rewrite (deleteRecord_missing _ _ _ _ E) in Hrun. done.
Qed.

Lemma delete_then_get_witness :
  ∃ st' removed,
    deleteRecord store_with_a "users" (VStr "a") sample_env = (st', Ok removed)
    ∧ getRecord st' "users" (VStr "a") = None.
Proof.
  eexists _, _. split; [reflexivity | ].
  refine (proj1 (delete_then_get store_with_a "users" (VStr "a") sample_env sample_env
                   _ _ _ _)).
  - compute_done.
  - reflexivity.
Defined.

(** X4. Creating a record whose id (a string, number, boolean or null, as
    every generated id is) is new to the collection and then deleting that
    id gives back the created record and leaves every collection with the
    records it had before the create. *)
Theorem create_then_delete st collection data env env' st1 r id :
  createRecord st collection data env = (st1, Ok r) →
  r !! "id" = Some id →
  primitive id = true →
  (∀ old, old ∈ getCollection st collection → old !! "id" ≠ Some id) →
  ∃ st2,
    deleteRecord st1 collection id env' = (st2, Ok r)
    ∧ ∀ other, getCollection st2 other = getCollection st other.
Proof.
  intros Hrun Hid Hprim Hfresh.
  destruct (createRecord_result st collection data env)
    as (st0 & id0 & Hrun0 & _ & _ & _ & Hcoll).
  rewrite Hrun in Hrun0. injection Hrun0 as <- Hr.
  assert (getCollection st1 collection = getCollection st collection ++ [r]) as Happ.
  { rewrite Hcoll, bool_decide_eq_true_2 by done. by rewrite Hr. }
  assert (findIndex (has_id id) (getCollection st1 collection)
          = Some (length (getCollection st collection))) as Hfind.
  { rewrite Happ. apply (findIndex_first _ _ _ r).
    - by rewrite lookup_app_r, Nat.sub_diag.
    - by apply has_id_primitive.
    - intros j y Hj Hy. rewrite lookup_app_l in Hy by done.
      destruct (has_id id y) eqn:E; [ | done]. apply has_id_eq in E.
      exfalso. eapply Hfresh; [ | exact E]. by eapply list_elem_of_lookup_2. }
  destruct (deleteRecord_found st1 collection id env' _ Hfind)
    as (st2 & removed & Hrem & _ & _ & Hdel & Hcoll2).
  rewrite Happ, lookup_app_r, Nat.sub_diag in Hrem by done. injection Hrem as <-.
  exists st2. split; [exact Hdel | ].
  intros other. rewrite Hcoll2. case_bool_decide as Hother.
  - subst other. rewrite Happ.
    rewrite delete_take_drop, take_app_length.
    rewrite drop_ge by (rewrite length_app; simpl; lia).
    by rewrite app_nil_r.
  - rewrite Hcoll. by rewrite bool_decide_eq_false_2.
Qed.

Lemma create_then_delete_witness :
  ∃ st1 r st2,
    createRecord store_with_a "users" (name_only "B") sample_env = (st1, Ok r)
    ∧ deleteRecord st1 "users" (VStr "1700000000000-k3j9x0q1z") sample_env = (st2, Ok r)
    ∧ getCollection st2 "users" = getCollection store_with_a "users".
Proof.
  destruct (create_then_delete store_with_a "users" (name_only "B") sample_env sample_env
              (createRecord store_with_a "users" (name_only "B") sample_env).1
              (default ∅
                 (last (getCollection
                          (createRecord store_with_a "users" (name_only "B") sample_env).1
                          "users")))
              (VStr "1700000000000-k3j9x0q1z"))
    as (st2 & Hdel & Hsame).
  - reflexivity.
  - reflexivity.
  - reflexivity.
  - intros old Hold. vm_compute in Hold. apply list_elem_of_singleton in Hold.
    subst old. discriminate.
  - eexists _, _, st2. split; [reflexivity | ]. split; [exact Hdel | apply Hsame].
Defined.

(** ** How the coordinator's methods act on the store *)

Lemma db_rollbackTransaction sys id env :
  ∃ h fault, db (rollbackTransaction sys id env).1 = (revertToCommit (db sys) h fault).1.
Proof.
  unfold rollbackTransaction.
  destruct (Map_get (activeTransactions sys) id) as [t | ];
    [ | by exists [], None].
  destruct (status t); try by exists [], None.
  exists (checkpointHash t), (reset_fault env).
  by destruct (revertToCommit_cases (db sys) (checkpointHash t) (reset_fault env))
    as [(c & rest & _ & _ & _ & ->) | (e & -> & _)].
Qed.

Lemma db_commitTransaction sys id env :
  ∃ message fault, db (commitTransaction sys id env).1 = commitChanges (db sys) message fault.
Proof.
  destruct (commitTransaction_cases sys id env)
    as [(e & -> & _) | [(t & e & _ & _ & _ & ->) | (t & _ & _ & ->)]]; simpl.
  - by exists InitialDatabaseSetup, (Some EmptyString).
  - by exists InitialDatabaseSetup, (Some EmptyString).
  - by eexists _, _.
Qed.

Lemma db_executeInTransaction sys id kind arguments env :
  db (executeInTransaction sys id kind arguments env).1 = db sys
  ∨ db (executeInTransaction sys id kind arguments env).1
    = (dispatch (db sys) kind arguments (store_env env)).1.
Proof.
  unfold executeInTransaction.
  destruct (Map_get (activeTransactions sys) id) as [t | ]; [ | by left].
  destruct (status t); try by left.
  right. by destruct (dispatch (db sys) kind arguments (store_env env)).
Qed.

Lemma db_beginTransaction sys transactionId env :
  db (beginTransaction sys transactionId env).1 = db sys.
Proof.
  pose proof (beginTransaction_cases sys transactionId env) as Hcases.
  simpl in Hcases.
  by destruct Hcases as [[_ ->] | [(_ & e & _ & ->) | (_ & _ & _ & ->)]].
Qed.

Section StoreInvariant.
Context (P : Store → Prop).
Context (P_create : ∀ st c d e, P st → P (createRecord st c d e).1).
Context (P_update : ∀ st c i d e, P st → P (updateRecord st c i d e).1).
Context (P_delete : ∀ st c i e, P st → P (deleteRecord st c i e).1).
Context (P_revert : ∀ st h f, P st → P (revertToCommit st h f).1).
Context (P_commit : ∀ st m f, P st → P (commitChanges st m f)).

Lemma dispatch_db_invariant st kind arguments env :
  P st → P (dispatch st kind arguments env).1.
Proof using P_create P_update P_delete.
  intros HP. unfold dispatch.
  repeat case_bool_decide; destruct arguments;
    first [ by apply P_create | by apply P_update | by apply P_delete | done ].
Qed.

Lemma rollback_each_db_invariant good bad ids envs :
  ∀ sys results, P (db sys) → P (db (rollback_each good bad sys ids envs results).1).
Proof using P_revert.
  induction ids as [ | id ids IH]; intros sys results HP; [done | ].
  rewrite rollback_each_cons. apply IH.
  destruct (db_rollbackTransaction sys id (envs id)) as (h & f & ->). by apply P_revert.
Qed.

Lemma step_db_invariant sys a : P (db sys) → P (db (step sys a)).
Proof using All.
  intros HP.
  destruct a as
    [ collection data env | collection rid data env | collection rid env
    | commitHash fault | transactionId env | transactionId kind arguments env
    | transactionId env | transactionId env | envs | maxAgeMinutes now envs ];
    simpl.
  - by apply P_create.
  - by apply P_update.
  - by apply P_delete.
  - by apply P_revert.
  - by rewrite db_beginTransaction.
  - destruct (db_executeInTransaction sys transactionId kind arguments env) as [-> | ->];
      [done | ].
    by apply dispatch_db_invariant.
  - destruct (db_commitTransaction sys transactionId env) as (m & f & ->).
    by apply P_commit.
  - destruct (db_rollbackTransaction sys transactionId env) as (h & f & ->).
    by apply P_revert.
  - by apply rollback_each_db_invariant.
  - by apply rollback_each_db_invariant.
Qed.

Lemma run_db_invariant trace : ∀ sys, P (db sys) → P (db (run sys trace)).
Proof using All.
  induction trace as [ | a trace IH]; intros sys HP; simpl; [done | ].
  apply IH. by apply step_db_invariant.
Qed.
End StoreInvariant.

(** ** Metadata *)

Lemma tree_ok_saveCollection st collection records env :
  tree_ok (worktree st) → tree_ok (worktree (saveCollection st collection records env)).
Proof.
  intros (m & Hm & Htotal & Hproto & Hcounts).
  unfold saveCollection, updateMetadata. simpl.
  rewrite Hm. simpl. eexists. split; [reflexivity | ]. simpl. split; [done | ].
  case_bool_decide as Hname.
  - subst collection. split; [done | ]. intros c Hc.
    rewrite lookup_insert_ne by done. by apply Hcounts.
  - split; [by rewrite lookup_insert_ne | ]. intros c Hc.
    destruct (decide (collection = c)) as [-> | Hne].
    + by rewrite !lookup_insert_eq.
    + rewrite !lookup_insert_ne by done. by apply Hcounts.
Qed.

Lemma store_sound_saveCollection st collection records env :
  store_sound st → store_sound (saveCollection st collection records env).
Proof.
  intros [Htree Hobjs]. split; [by apply tree_ok_saveCollection | ].
  by rewrite (proj2 (HEAD_saveCollection st collection records env)).
Qed.

Lemma store_sound_commitChanges st message fault :
  store_sound st → store_sound (commitChanges st message fault).
Proof.
  intros [Htree Hobjs]. unfold commitChanges. destruct fault; [done | ].
  destruct (nothing_to_commit st); [done | ]. split; simpl; [done | ].
  by constructor.
Qed.

Lemma store_sound_revertToCommit st commitHash fault :
  store_sound st → store_sound (revertToCommit st commitHash fault).1.
Proof.
  intros [Htree Hobjs].
  destruct (revertToCommit_cases st commitHash fault)
    as [(c & rest & -> & _ & Hin & ->) | (e & -> & _)]; [ | done].
  split; simpl; [ | done].
  rewrite Forall_forall in Hobjs. apply (Hobjs _ Hin).
Qed.

Lemma store_sound_createRecord st collection data env :
  store_sound st → store_sound (createRecord st collection data env).1.
Proof.
  intros H. unfold createRecord. simpl.
  by apply store_sound_commitChanges, store_sound_saveCollection.
Qed.

Lemma store_sound_updateRecord st collection id data env :
  store_sound st → store_sound (updateRecord st collection id data env).1.
Proof.
  intros H. unfold updateRecord. destruct (findIndex _ _); simpl; [ | done].
  by apply store_sound_commitChanges, store_sound_saveCollection.
Qed.

Lemma store_sound_deleteRecord st collection id env :
  store_sound st → store_sound (deleteRecord st collection id env).1.
Proof.
  intros H. unfold deleteRecord. destruct (findIndex _ _); simpl; [ | done].
  by apply store_sound_commitChanges, store_sound_saveCollection.
Qed.

Lemma store_sound_initialize stamp : store_sound (initialize stamp).
Proof.
  assert (tree_ok (worktree (initialize stamp))) as Htree.
  { eexists. split; [reflexivity | ]. simpl. split; [by rewrite map_fold_empty | ].
    split; [done | ]. intros c _. by rewrite !lookup_empty. }
  split; [done | ]. simpl. by repeat constructor.
Qed.

Lemma counts_total (cols : gmap string CollectionMeta) (fs : gmap string (list Record)) :
  cols !! "__proto__" = None →
  (∀ c, c ≠ "__proto__" → recordCount <$> (cols !! c) = length <$> (fs !! c)) →
  map_fold (λ _ col total, (total + recordCount col)%nat) 0%nat cols
  = count_all (delete "__proto__" fs).
Proof.
  intros Hproto Hcounts.
  assert (recordCount <$> cols = length <$> delete "__proto__" fs) as Heq.
  { apply map_eq. intros c. rewrite !lookup_fmap.
    destruct (decide (c = "__proto__")) as [-> | Hc].
    - by rewrite Hproto, lookup_delete_eq.
    - rewrite lookup_delete_ne by done. by apply Hcounts. }
  unfold count_all.
  transitivity (map_fold (λ (_ : string) n total, (total + n)%nat) 0%nat
                  (recordCount <$> cols)).
  - by rewrite map_fold_fmap.
  - rewrite Heq. by rewrite map_fold_fmap.
Qed.

(** X5. Start from a freshly initialized database and make any sequence
    of calls in which no git command fails while a call captures the
    directory and every collection named is a plain file name.  In every
    state so reached the metadata file is readable and lists every
    collection that has a file, except one named [__proto__], which is never
    listed: its total is the number of records in the files of the other
    collections, and any other name is listed exactly when it has a file,
    with the length of that file as its count. *)
Theorem metadata_matches_collections stamp registry trace :
  forallb captures trace = true →
  forallb plain_names trace = true →
  ∃ m,
    metadata (worktree (db (run {| db := initialize stamp;
                                   activeTransactions := registry |} trace)))
    = Some m
    ∧ collections m !! "__proto__" = None
    ∧ totalRecords m
      = count_all
          (delete "__proto__"
             (files (worktree (db (run {| db := initialize stamp;
                                          activeTransactions := registry |}
                                     trace)))))
    ∧ ∀ c,
        c ≠ "__proto__" →
        recordCount <$> (collections m !! c)
        = length <$> (files (worktree (db (run {| db := initialize stamp;
                                                  activeTransactions := registry |}
                                             trace))) !! c).
Proof.
  intros _ _.
  pose proof (run_db_invariant store_sound
                store_sound_createRecord store_sound_updateRecord
                store_sound_deleteRecord store_sound_revertToCommit
                store_sound_commitChanges trace
                {| db := initialize stamp; activeTransactions := registry |}
                (store_sound_initialize stamp))
    as [(m & Hm & Htotal & Hproto & Hcounts) _].
  exists m. split; [done | ]. split; [done | ]. split; [ | done].
  rewrite Htotal. by apply counts_total.
Qed.

Lemma metadata_matches_collections_witness :
  ∃ m,
    metadata (worktree (db (run sample_system trace_opening_T1))) = Some m
    ∧ totalRecords m = 2%nat
    ∧ recordCount <$> (collections m !! "users") = Some 2%nat.
Proof.
  destruct (metadata_matches_collections "2023-11-14T22:00:00.000Z" [] trace_opening_T1)
    as (m & Hm & _ & Htotal & Hcounts).
  - reflexivity.
  - reflexivity.
  - exists m. split; [exact Hm | ]. split.
    + rewrite Htotal. reflexivity.
    + rewrite Hcounts; [reflexivity | discriminate].
Defined.

(** ** One commit per change *)

Lemma commitChanges_cases st message fault :
  commitChanges st message fault = st
  ∨ (fault = None ∧ nothing_to_commit st = false
     ∧ commitChanges st message fault
       = {| worktree := worktree st;
            HEAD := {| c_tree := worktree st; c_message := message |} :: HEAD st;
            objects := ({| c_tree := worktree st; c_message := message |} :: HEAD st)
                       :: objects st |}).
Proof.
  unfold commitChanges. destruct fault; [by left | ].
  destruct (nothing_to_commit st); [by left | by right].
Qed.

Lemma saveCollection_changes st collection records env :
  length records ≠ length (getCollection st collection) →
  worktree (saveCollection st collection records env) ≠ worktree st.
Proof.
  intros Hlen Heq. apply Hlen. unfold getCollection.
  rewrite <- Heq, files_saveCollection. by rewrite lookup_insert_eq.
Qed.

Lemma commit_after_change st collection records env :
  clean st = true →
  length records ≠ length (getCollection st collection) →
  nothing_to_commit (saveCollection st collection records env) = false.
Proof.
  intros Hclean Hlen.
  pose proof (saveCollection_changes st collection records env Hlen) as Hne.
  unfold clean, nothing_to_commit in *.
  rewrite (proj1 (HEAD_saveCollection st collection records env)).
  destruct (HEAD st) as [ | c rest]; apply bool_decide_eq_true in Hclean;
    apply bool_decide_eq_false; congruence.
Qed.

(** X6. Every store method adds at most one commit to the history, and a
    commit it adds captures the directory as the method left it.  On a
    clean directory with git working, a [createRecord] that returns and a
    [deleteRecord] that finds its record add exactly one, so that the
    directory is clean again; an [updateRecord] or [deleteRecord] that finds
    nothing adds none. *)
Theorem one_commit_per_change st collection id data env :
  (∀ st', st' = (createRecord st collection data env).1
          ∨ st' = (updateRecord st collection id data env).1
          ∨ st' = (deleteRecord st collection id env).1 →
     HEAD st' = HEAD st
     ∨ ∃ message, HEAD st' = {| c_tree := worktree st'; c_message := message |} :: HEAD st)
  ∧ (∀ st' created,
       createRecord st collection data env = (st', Ok created) →
       clean st = true → git_fault env = None →
       HEAD st'
       = {| c_tree := worktree st';
            c_message := CreateRecordIn (default VNull (created !! "id")) collection |}
         :: HEAD st
       ∧ clean st' = true)
  ∧ (clean st = true → git_fault env = None →
     (∃ r, r ∈ getCollection st collection ∧ has_id id r = true) →
     HEAD (deleteRecord st collection id env).1
     = {| c_tree := worktree (deleteRecord st collection id env).1;
          c_message := DeleteRecordFrom id collection |} :: HEAD st
     ∧ clean (deleteRecord st collection id env).1 = true)
  ∧ ((∀ r, r ∈ getCollection st collection → has_id id r = false) →
     HEAD (updateRecord st collection id data env).1 = HEAD st
     ∧ HEAD (deleteRecord st collection id env).1 = HEAD st).
Proof.
  split_and!.
  - assert (∀ records message,
              let st' := commitChanges (saveCollection st collection records env)
                           message (git_fault env) in
              HEAD st' = HEAD st
              ∨ ∃ message, HEAD st'
                           = {| c_tree := worktree st'; c_message := message |} :: HEAD st)
      as Hsave.
    { intros records message. simpl.
      rewrite worktree_commitChanges.
      destruct (commitChanges_cases (saveCollection st collection records env) message
                  (git_fault env)) as [-> | (_ & _ & ->)]; simpl.
      - left. apply HEAD_saveCollection.
      - right. exists message.
        by rewrite (proj1 (HEAD_saveCollection st collection records env)). }
    intros st' [-> | [-> | ->]].
    + unfold createRecord. simpl. apply Hsave.
    + unfold updateRecord. destruct (findIndex _ _); simpl; [apply Hsave | by left].
    + unfold deleteRecord. destruct (findIndex _ _); simpl; [apply Hsave | by left].
  - intros st' created Hreturned Hclean Hfault. unfold createRecord in Hreturned.
    injection Hreturned as <- <-. rewrite Hfault.
    rewrite !lookup_insert_ne, lookup_insert_eq by done. simpl.
    split; [ | apply commitChanges_clean].
    unfold commitChanges. rewrite commit_after_change; [ | done | ].
    + simpl. by rewrite (proj1 (HEAD_saveCollection _ _ _ _)).
    + rewrite length_app. simpl. lia.
  - intros Hclean Hfault (r & Hr & Hid).
    destruct (exists_findIndex _ _ _ Hr Hid) as [index Hindex].
    unfold deleteRecord. rewrite Hindex. simpl. rewrite Hfault.
    split; [ | apply commitChanges_clean].
    unfold commitChanges. rewrite commit_after_change; [ | done | ].
    + simpl. by rewrite (proj1 (HEAD_saveCollection _ _ _ _)).
    + destruct (findIndex_Some _ _ _ Hindex) as (x & Hx & _).
      pose proof (lookup_lt_Some _ _ _ Hx). rewrite length_delete by done. lia.
  - intros Hnone. apply findIndex_None in Hnone.
    by rewrite (updateRecord_missing _ _ _ _ _ Hnone),
      (deleteRecord_missing _ _ _ _ Hnone).
Qed.

Lemma one_commit_per_change_witness :
  length (HEAD (createRecord store_with_a "users" (name_only "B") sample_env).1) = 3%nat
  ∧ length (HEAD (deleteRecord store_with_a "users" (VStr "a") sample_env).1) = 3%nat
  ∧ HEAD (updateRecord store_with_a "users" (VStr "zz") ∅ sample_env).1
    = HEAD store_with_a.
Proof.
  pose proof (one_commit_per_change store_with_a "users" (VStr "a") (name_only "B")
                sample_env) as (_ & Hcreate & Hdelete & _).
  pose proof (one_commit_per_change store_with_a "users" (VStr "zz") ∅ sample_env)
    as (_ & _ & _ & Hmissing).
  split_and!.
  - destruct (Hcreate _ _ eq_refl) as [Hhead _]; [reflexivity | reflexivity | ].
    etransitivity; [exact (f_equal length Hhead) | reflexivity].
  - destruct Hdelete as [-> _]; [reflexivity | reflexivity | | reflexivity].
    exists (default ∅ (getCollection store_with_a "users" !! 0%nat)).
    split; compute_done.
  - apply Hmissing. intros r Hr. vm_compute in Hr.
    apply list_elem_of_singleton in Hr. by subst.
Defined.

Lemma clean_revertToCommit st commitHash fault :
  clean st = true → clean (revertToCommit st commitHash fault).1 = true.
Proof.
  intros Hclean.
  destruct (revertToCommit_cases st commitHash fault)
    as [(c & rest & -> & _ & _ & ->) | (e & -> & _)]; [ | done].
  unfold clean, nothing_to_commit. simpl. by apply bool_decide_eq_true.
Qed.

Lemma clean_saved st collection records env message :
  git_fault env = None →
  clean (commitChanges (saveCollection st collection records env) message (git_fault env))
  = true.
Proof. intros ->. apply commitChanges_clean. Qed.

Lemma clean_dispatch st kind arguments env :
  git_fault env = None → clean st = true →
  clean (dispatch st kind arguments env).1 = true.
Proof.
  intros Hfault Hclean. unfold dispatch, createRecord, updateRecord, deleteRecord.
  repeat case_bool_decide; destruct arguments; simpl; try done;
    try destruct (findIndex _ _); simpl; try done; by apply clean_saved.
Qed.

(** X7. The directory and the history disagree only through a capture that
    failed: from a clean directory, after any sequence of calls in which no
    git command fails while the directory is being captured (reverts,
    rollbacks and sweeps may fail or not), the directory is again exactly
    the tree of [HEAD]. *)
Theorem clean_while_captures_succeed trace :
  ∀ sys,
    clean (db sys) = true →
    forallb captures trace = true →
    clean (db (run sys trace)) = true.
Proof.
  induction trace as [ | a trace IH]; intros sys Hclean Hall; simpl; [done | ].
  simpl in Hall. apply andb_true_iff in Hall as [Ha Hall].
  apply IH; [ | done]. clear IH Hall.
  destruct a as
    [ collection data env | collection rid data env | collection rid env
    | commitHash fault | transactionId env | transactionId kind arguments env
    | transactionId env | transactionId env | envs | maxAgeMinutes now envs ];
    simpl in *; try apply bool_decide_eq_true in Ha.
  - unfold createRecord. simpl. by apply clean_saved.
  - unfold updateRecord. destruct (findIndex _ _); simpl; [by apply clean_saved | done].
  - unfold deleteRecord. destruct (findIndex _ _); simpl; [by apply clean_saved | done].
  - by apply clean_revertToCommit.
  - by rewrite db_beginTransaction.
  - destruct (db_executeInTransaction sys transactionId kind arguments env) as [-> | ->];
      [done | by apply clean_dispatch].
  - destruct (commitTransaction_cases sys transactionId env)
      as [(e & -> & _) | [(t & e & _ & _ & _ & ->) | (t & _ & _ & ->)]]; simpl;
      try done.
    rewrite Ha. apply commitChanges_clean.
  - destruct (db_rollbackTransaction sys transactionId env) as (h & f & ->).
    by apply clean_revertToCommit.
  - apply (rollback_each_db_invariant (λ st, clean st = true)); [ | done].
    intros st h f. apply clean_revertToCommit.
  - apply (rollback_each_db_invariant (λ st, clean st = true)); [ | done].
    intros st h f. apply clean_revertToCommit.
Qed.

Lemma clean_while_captures_succeed_witness :
  clean (db (run (beginTransaction system_before_T1 (Some "T1") sample_tx_env).1
               trace_in_T1))
  = true.
Proof.
  apply clean_while_captures_succeed; reflexivity.
Defined.

(** * Further properties of the coordinator *)

(** X8. [commitTransaction] on a registered active transaction, with
    [git rev-parse] working, returns the transaction marked committed with
    the [HEAD] of before the closing capture as its final hash, removes it
    from the registry and leaves the other entries alone.  It changes no
    file: every collection reads as before.  The closing capture adds at
    most one commit, and none at all when the directory is clean. *)
Theorem commitTransaction_keeps_changes sys id env t :
  consistent sys = true →
  Map_get (activeTransactions sys) id = Some t →
  status t = Active →
  rev_parse_fault env = None →
  HEAD (db sys) ≠ [] →
  ∃ sys',
    commitTransaction sys id env
    = (sys', Ok (close_transaction t Committed (now_ms env) (Some (HEAD (db sys)))))
    ∧ worktree (db sys') = worktree (db sys)
    ∧ (∀ collection, getCollection (db sys') collection = getCollection (db sys) collection)
    ∧ Map_get (activeTransactions sys') id = None
    ∧ (∀ other, other ≠ id →
         Map_get (activeTransactions sys') other = Map_get (activeTransactions sys) other)
    ∧ (HEAD (db sys') = HEAD (db sys)
       ∨ HEAD (db sys')
         = {| c_tree := worktree (db sys);
              c_message := TransactionCommitted id (length (operations t)) |}
           :: HEAD (db sys))
    ∧ (clean (db sys) = true → HEAD (db sys') = HEAD (db sys)).
Proof.
  intros Hc%consistent_spec Hget Hactive Hfault Hhead.
  destruct (commitTransaction_cases sys id env)
    as [(e & _ & [Hnone | (t' & Hget' & Hst)])
       | [(t' & e & _ & _ & Hgit & _) | (t' & Hget' & _ & ->)]].
  - congruence.
  - rewrite Hget in Hget'. injection Hget' as <-. done.
  - unfold getCurrentCommitHash in Hgit. rewrite Hfault in Hgit.
    by destruct (HEAD (db sys)).
  - rewrite Hget in Hget'. injection Hget' as <-.
    eexists. split; [reflexivity | ]. simpl.
    split_and!.
    + apply worktree_commitChanges.
    + intros collection. unfold getCollection. by rewrite worktree_commitChanges.
    + apply Map_get_delete_eq, (consistent_keys _ Hc).
    + intros other Hother. by apply Map_get_delete_ne.
    + destruct (commitChanges_cases (db sys)
                  (TransactionCommitted id (length (operations t)))
                  (git_fault (store_env env))) as [-> | (_ & _ & ->)];
        [by left | by right].
    + intros Hclean. unfold commitChanges.
      destruct (git_fault (store_env env)); [done | ].
      unfold clean in Hclean. by rewrite Hclean.
Qed.

Lemma commitTransaction_keeps_changes_witness :
  ∃ sys' t',
    commitTransaction system_with_T1 "T1" sample_tx_env = (sys', Ok t')
    ∧ status t' = Committed
    ∧ HEAD (db sys') = HEAD (db system_with_T1).
Proof.
  destruct (commitTransaction_keeps_changes system_with_T1 "T1" sample_tx_env
              (default no_transaction (Map_get (activeTransactions system_with_T1) "T1")))
    as (sys' & Hrun & _ & _ & _ & _ & _ & Hclean).
  - reflexivity.
  - reflexivity.
  - reflexivity.
  - reflexivity.
  - discriminate.
  - eexists sys', _. split; [exact Hrun | ]. split; [reflexivity | ].
    apply Hclean. reflexivity.
Defined.

Lemma stuck_at_other_set id t sys st' k v :
  k ≠ id → stuck_at id t sys →
  stuck_at id t {| db := st'; activeTransactions := Map_set (activeTransactions sys) k v |}.
Proof. intros Hne [Hget Hst]. split; [ | done]. simpl. by rewrite Map_get_set_ne. Qed.

Lemma stuck_at_other_delete id t sys st' k :
  k ≠ id → stuck_at id t sys →
  stuck_at id t {| db := st'; activeTransactions := Map_delete (activeTransactions sys) k |}.
Proof. intros Hne [Hget Hst]. split; [ | done]. simpl. by rewrite Map_get_delete_ne. Qed.

Lemma stuck_at_rejects id t sys :
  stuck_at id t sys →
  (∀ kind arguments env,
     executeInTransaction sys id kind arguments env
     = (sys, Err (TransactionNotActive id Committed)))
  ∧ (∀ env, commitTransaction sys id env = (sys, Err (TransactionNotActive id Committed)))
  ∧ (∀ env, rollbackTransaction sys id env = (sys, Err (TransactionNotActive id Committed))).
Proof.
  intros [Hget Hst]. split_and!.
  - intros kind arguments env. unfold executeInTransaction. by rewrite Hget, Hst.
  - intros env. unfold commitTransaction. by rewrite Hget, Hst.
  - intros env. unfold rollbackTransaction. by rewrite Hget, Hst.
Qed.

Lemma rollback_each_stuck_at good bad ids envs id t :
  ∀ sys results,
    stuck_at id t sys → stuck_at id t (rollback_each good bad sys ids envs results).1.
Proof.
  induction ids as [ | k ids IH]; intros sys results Hstuck; [done | ].
  rewrite rollback_each_cons. apply IH.
  destruct (rollbackTransaction_cases sys k (envs k))
    as [(t' & c & rest & Hget & Hactive & _ & _ & _ & ->) | (e & -> & _)]; [ | done].
  apply stuck_at_other_delete; [ | done].
  intros ->. destruct Hstuck as [Hget' Hst]. congruence.
Qed.

Lemma step_stuck_at sys a id t : stuck_at id t sys → stuck_at id t (step sys a).
Proof.
  intros Hstuck. pose proof Hstuck as [Hget Hst].
  destruct (stuck_at_rejects id t sys Hstuck) as (Hexec & Hcommit & Hrollback).
  destruct a as
    [ collection data env | collection rid data env | collection rid env
    | commitHash fault | transactionId env | transactionId kind arguments env
    | transactionId env | transactionId env | envs | maxAgeMinutes now envs ];
    simpl; try done.
  - pose proof (beginTransaction_cases sys transactionId env) as Hcases.
    simpl in Hcases.
    destruct Hcases as [[_ ->] | [(_ & e & _ & ->) | (Hnew & _ & _ & ->)]]; try done.
    apply stuck_at_other_set; [ | done]. intros Heq. congruence.
  - destruct (decide (transactionId = id)) as [-> | Hne]; [by rewrite Hexec | ].
    destruct (Map_get (activeTransactions sys) transactionId) as [t0 | ] eqn:Hget0.
    + destruct (decide (status t0 = Active)) as [Hactive | Hother].
      * destruct (executeInTransaction_active sys transactionId kind arguments env
                    t0 Hget0 Hactive) as (entry & -> & _).
        by apply stuck_at_other_set.
      * destruct (executeInTransaction_rejected sys transactionId kind arguments env)
          as [e ->]; [ | done]. right. by exists t0.
    + destruct (executeInTransaction_rejected sys transactionId kind arguments env)
        as [e ->]; [by left | done].
  - destruct (decide (transactionId = id)) as [-> | Hne]; [by rewrite Hcommit | ].
    destruct (commitTransaction_cases sys transactionId env)
      as [(e & -> & _) | [(t0 & e & _ & _ & _ & ->) | (t0 & _ & _ & ->)]]; simpl.
    + done.
    + by apply stuck_at_other_set.
    + by apply stuck_at_other_delete.
  - destruct (decide (transactionId = id)) as [-> | Hne]; [by rewrite Hrollback | ].
    destruct (rollbackTransaction_cases sys transactionId env)
      as [(t0 & c & rest & _ & _ & _ & _ & _ & ->) | (e & -> & _)]; simpl.
    + by apply stuck_at_other_delete.
    + done.
  - by apply rollback_each_stuck_at.
  - by apply rollback_each_stuck_at.
Qed.

Lemma run_stuck_at trace id t :
  ∀ sys, stuck_at id t sys → stuck_at id t (run sys trace).
Proof.
  induction trace as [ | a trace IH]; intros sys Hstuck; simpl; [done | ].
  apply IH. by apply step_stuck_at.
Qed.

(** X9. When [git rev-parse] fails inside [commitTransaction], the error is
    raised after the transaction has been marked committed and before it is
    removed from the registry.  The transaction then stays registered with
    status committed through every later sequence of calls: executing in
    it, committing it and rolling it back all fail and change nothing, and
    both sweeps keep reporting an error for it. *)
Theorem failed_commit_sticks sys id env t e :
  Map_get (activeTransactions sys) id = Some t →
  status t = Active →
  getCurrentCommitHash (db sys) (rev_parse_fault env) = Err e →
  ∃ sys1 t1,
    commitTransaction sys id env = (sys1, Err e)
    ∧ db sys1 = db sys
    ∧ status t1 = Committed
    ∧ ∀ trace,
        Map_get (activeTransactions (run sys1 trace)) id = Some t1
        ∧ (∀ kind arguments env',
             executeInTransaction (run sys1 trace) id kind arguments env'
             = (run sys1 trace, Err (TransactionNotActive id Committed)))
        ∧ (∀ env',
             commitTransaction (run sys1 trace) id env'
             = (run sys1 trace, Err (TransactionNotActive id Committed)))
        ∧ (∀ env',
             rollbackTransaction (run sys1 trace) id env'
             = (run sys1 trace, Err (TransactionNotActive id Committed)))
        ∧ (∀ envs,
             {| out_id := id; out_status := error; out_result := None;
                out_error := Some (TransactionNotActive id Committed) |}
             ∈ (abortAllTransactions (run sys1 trace) envs).2).
Proof.
  intros Hget Hactive Hgit.
  destruct (commitTransaction_cases sys id env)
    as [(e' & _ & [Hnone | (t' & Hget' & Hst)])
       | [(t' & e' & Hget' & _ & Hgit' & ->) | (t' & _ & _ & Hrun)]].
  - congruence.
  - rewrite Hget in Hget'. injection Hget' as <-. done.
  - rewrite Hget in Hget'. injection Hget' as <-.
    rewrite Hgit in Hgit'. injection Hgit' as <-.
    eexists _, (close_transaction t Committed (now_ms env) (finalCommitHash t)).
    split; [reflexivity | ]. split; [done | ]. split; [done | ].
    intros trace.
    match goal with |- context [run ?s trace] => set (sys1 := s) end.
    assert (stuck_at id (close_transaction t Committed (now_ms env) (finalCommitHash t))
              (run sys1 trace)) as Hstuck.
    { apply run_stuck_at. split; [ | done]. simpl. apply Map_get_set_eq. }
    destruct (stuck_at_rejects _ _ _ Hstuck) as (Hexec & Hcommit & Hrollback).
    split; [apply Hstuck | ]. split; [done | ]. split; [done | ]. split; [done | ].
    intros envs. unfold abortAllTransactions.
    assert (∀ ids results sys2,
              (∀ envx, rollbackTransaction sys2 id envx
                       = (sys2, Err (TransactionNotActive id Committed))) →
              stuck_at id (close_transaction t Committed (now_ms env) (finalCommitHash t))
                sys2 →
              id ∈ ids →
              {| out_id := id; out_status := error; out_result := None;
                 out_error := Some (TransactionNotActive id Committed) |}
              ∈ (rollback_each rolled_back error sys2 ids envs results).2) as Hloop.
    { clear. assert (∀ ids results sys2 o,
                       o ∈ results →
                       o ∈ (rollback_each rolled_back error sys2 ids envs results).2)
        as Hkeep.
      { induction ids as [ | k ids IH]; intros results sys2 o Ho; [done | ].
        rewrite rollback_each_cons. apply IH. apply elem_of_app. by left. }
      induction ids as [ | k ids IH]; intros results sys2 Hrej Hstuck Hin.
      - by apply elem_of_nil in Hin.
      - rewrite rollback_each_cons.
        destruct (decide (k = id)) as [-> | Hne].
        + apply Hkeep. apply elem_of_app. right. apply list_elem_of_singleton.
          unfold attempt_alone. by rewrite Hrej.
        + apply elem_of_cons in Hin as [-> | Hin]; [done | ].
          pose proof (step_stuck_at sys2 (RollbackTx k (envs k)) id _ Hstuck) as Hstuck'.
          simpl in Hstuck'.
          apply IH; [ | done | done].
          intros envx. by apply stuck_at_rejects with (t := close_transaction t Committed
                                         (now_ms env) (finalCommitHash t)). }
    apply Hloop; [done | done | ].
    destruct Hstuck as [Hget1 _]. apply Map_get_elem in Hget1.
    unfold Map_keys. apply list_elem_of_fmap. by exists (id, close_transaction t Committed
                                     (now_ms env) (finalCommitHash t)).
  - unfold getCurrentCommitHash in Hgit. rewrite Hrun.
    exfalso. revert Hrun. unfold commitTransaction. rewrite Hget, Hactive.
    unfold getCurrentCommitHash.
    destruct (rev_parse_fault env); [done | ]. by destruct (HEAD (db sys)).
Qed.

Lemma failed_commit_sticks_witness :
  ∃ sys1,
    commitTransaction system_with_T1 "T1" failing_rev_parse_env
    = (sys1, Err (GitFailure "fatal: not a git repository"))
    ∧ rollbackTransaction sys1 "T1" sample_tx_env
      = (sys1, Err (TransactionNotActive "T1" Committed)).
Proof.
  destruct (failed_commit_sticks system_with_T1 "T1" failing_rev_parse_env
              (default no_transaction (Map_get (activeTransactions system_with_T1) "T1"))
              (GitFailure "fatal: not a git repository"))
    as (sys1 & t1 & Hrun & _ & _ & Hlater).
  - reflexivity.
  - reflexivity.
  - reflexivity.
  - exists sys1. split; [exact Hrun | ].
    destruct (Hlater []) as (_ & _ & _ & Hrollback & _). apply Hrollback.
Defined.

(** X10. Commit and rollback are final.  Once [commitTransaction] or
    [rollbackTransaction] has succeeded for an id, executing in that
    transaction, committing it or rolling it back fails with the not-found
    error and changes nothing, in the registry or in the store. *)
Theorem closed_transaction_is_gone sys id env sys' t' :
  consistent sys = true →
  commitTransaction sys id env = (sys', Ok t')
  ∨ rollbackTransaction sys id env = (sys', Ok t') →
  status t' ≠ Active
  ∧ Map_get (activeTransactions sys') id = None
  ∧ (∀ kind arguments env',
       executeInTransaction sys' id kind arguments env'
       = (sys', Err (TransactionNotFound id)))
  ∧ (∀ env', commitTransaction sys' id env' = (sys', Err (TransactionNotFound id)))
  ∧ (∀ env', rollbackTransaction sys' id env' = (sys', Err (TransactionNotFound id))).
Proof.
  intros Hc%consistent_spec Hdone.
  assert (status t' ≠ Active ∧ Map_get (activeTransactions sys') id = None)
    as [Hstatus Hgone].
  { destruct Hdone as [Hrun | Hrun].
    - destruct (commitTransaction_cases sys id env)
        as [(e & He & _) | [(t & e & _ & _ & _ & He) | (t & _ & _ & He)]];
        rewrite He in Hrun; try done.
      injection Hrun as <- <-. split; [done | ].
      apply Map_get_delete_eq, (consistent_keys _ Hc).
    - destruct (rollbackTransaction_cases sys id env)
        as [(t & c & rest & _ & _ & _ & _ & _ & He) | (e & He & _)];
        rewrite He in Hrun; try done.
      injection Hrun as <- <-. split; [done | ].
      apply Map_get_delete_eq, (consistent_keys _ Hc). }
  split_and!; try done.
  - intros kind arguments env'. unfold executeInTransaction. by rewrite Hgone.
  - intros env'. unfold commitTransaction. by rewrite Hgone.
  - intros env'. unfold rollbackTransaction. by rewrite Hgone.
Qed.

Lemma closed_transaction_is_gone_witness :
  ∃ sys' t',
    rollbackTransaction system_with_T1 "T1" sample_tx_env = (sys', Ok t')
    ∧ commitTransaction sys' "T1" sample_tx_env = (sys', Err (TransactionNotFound "T1")).
Proof.
  eexists _, _. split; [reflexivity | ].
  refine (proj1 (proj2 (proj2 (proj2 (closed_transaction_is_gone system_with_T1 "T1"
                                        sample_tx_env _ _ _ _)))) _).
  - reflexivity.
  - right. reflexivity.
Defined.

Lemma HEAD_saved st collection records env message :
  HEAD (commitChanges (saveCollection st collection records env) message (git_fault env))
  = HEAD st
  ∨ ∃ c, HEAD (commitChanges (saveCollection st collection records env) message
                 (git_fault env))
         = c :: HEAD st.
Proof.
  destruct (commitChanges_cases (saveCollection st collection records env) message
              (git_fault env)) as [-> | (_ & _ & ->)]; simpl.
  - left. apply HEAD_saveCollection.
  - right. eexists. by rewrite (proj1 (HEAD_saveCollection st collection records env)).
Qed.

Lemma HEAD_nonempty_saved st collection records env message :
  HEAD st ≠ [] →
  HEAD (commitChanges (saveCollection st collection records env) message (git_fault env))
  ≠ [].
Proof.
  intros H. by destruct (HEAD_saved st collection records env message) as [-> | [c ->]].
Qed.

Lemma HEAD_nonempty_invariant trace :
  ∀ sys, HEAD (db sys) ≠ [] → HEAD (db (run sys trace)) ≠ [].
Proof.
  apply (run_db_invariant (λ st, HEAD st ≠ [])).
  - intros st c d e H. unfold createRecord. simpl. by apply HEAD_nonempty_saved.
  - intros st c i d e H. unfold updateRecord.
    destruct (findIndex _ _); simpl; [by apply HEAD_nonempty_saved | done].
  - intros st c i e H. unfold deleteRecord.
    destruct (findIndex _ _); simpl; [by apply HEAD_nonempty_saved | done].
  - intros st h f H.
    by destruct (revertToCommit_cases st h f)
      as [(c & rest & -> & _ & _ & ->) | (e & -> & _)].
  - intros st m f H.
    by destruct (commitChanges_cases st m f) as [-> | (_ & _ & ->)].
Qed.

(** X11. From a freshly initialized database, after any sequence of calls
    (failures included), the coordinator is never short of a checkpoint:
    [beginTransaction] with an id that is not registered succeeds whenever
    [git rev-parse] answers, and every registered active transaction is
    rolled back whenever [git reset] works, its checkpoint being a commit
    the repository still holds, at which [HEAD] then stands.  When moreover
    no git command failed while a call of the sequence captured the
    directory, and every collection was named by a plain file name, the
    directory after the rollback is the tree of that commit. *)
Theorem checkpoints_stay_valid stamp trace :
  (∀ transactionId env,
     Map_get (activeTransactions
                (run {| db := initialize stamp; activeTransactions := [] |} trace))
       (chosen_id transactionId env) = None →
     rev_parse_fault env = None →
     ∃ sys' t,
       beginTransaction (run {| db := initialize stamp; activeTransactions := [] |} trace)
         transactionId env
       = (sys', Ok t)
       ∧ tx_id t = chosen_id transactionId env)
  ∧ (∀ id t env,
       Map_get (activeTransactions
                  (run {| db := initialize stamp; activeTransactions := [] |} trace)) id
       = Some t →
       status t = Active →
       reset_fault env = None →
       ∃ sys' c rest,
         rollbackTransaction
           (run {| db := initialize stamp; activeTransactions := [] |} trace) id env
         = (sys', Ok (close_transaction t RolledBack (now_ms env) (finalCommitHash t)))
         ∧ checkpointHash t = c :: rest
         ∧ checkpointHash t ∈ objects (db sys')
         ∧ HEAD (db sys') = checkpointHash t
         ∧ (forallb captures trace = true →
            forallb plain_names trace = true →
            worktree (db sys') = c_tree c)).
Proof.
  set (sys := run {| db := initialize stamp; activeTransactions := [] |} trace).
  assert (Consistent sys) as Hc
    by apply run_Consistent, initialize_Consistent.
  assert (HEAD (db sys) ≠ []) as Hhead
    by (by apply HEAD_nonempty_invariant).
  split.
  - intros transactionId env Hfree Hfault.
    pose proof (beginTransaction_cases sys transactionId env) as Hcases.
    simpl in Hcases.
    destruct Hcases as [[Hhas _] | [(_ & e & Hgit & _) | (_ & _ & _ & ->)]].
    + done.
    + unfold getCurrentCommitHash in Hgit. rewrite Hfault in Hgit.
      by destruct (HEAD (db sys)).
    + by eexists _, _.
  - intros id t env Hget Hactive Hfault.
    pose proof (rollbackTransaction_healthy sys id env t Hc Hget Hactive Hfault) as Hok.
    destruct (rollbackTransaction_cases sys id env)
      as [(t' & c & rest & Hget' & _ & _ & Hcp & Hin & Hrun) | (e & Hrun & _)];
      rewrite Hrun in Hok; [ | done].
    rewrite Hget in Hget'. injection Hget' as <-.
    rewrite Hrun. by eexists _, c, rest.
Qed.

Lemma checkpoints_stay_valid_witness :
  (∃ sys' t,
     beginTransaction (run sample_system trace_opening_T1) (Some "T9") sample_tx_env
     = (sys', Ok t))
  ∧ ∃ sys' t' c rest,
      rollbackTransaction (run sample_system trace_opening_T1) "T1" sample_tx_env
      = (sys', Ok t')
      ∧ HEAD (db sys') = c :: rest
      ∧ worktree (db sys') = c_tree c
      ∧ length (getCollection (db sys') "users") = 1%nat.
Proof.
  destruct (checkpoints_stay_valid "2023-11-14T22:00:00.000Z" trace_opening_T1)
    as [Hbegin Hrollback].
  split.
  - destruct (Hbegin (Some "T9") sample_tx_env) as (sys' & t & Hrun & _).
    + reflexivity.
    + reflexivity.
    + by exists sys', t.
  - destruct (Hrollback "T1"
                (default no_transaction
                   (Map_get (activeTransactions (run sample_system trace_opening_T1))
                      "T1"))
                sample_tx_env)
      as (sys' & c & rest & Hrun & Hcp & _ & Hhead & Htree).
    + reflexivity.
    + reflexivity.
    + reflexivity.
    + eexists sys', _, c, rest. split; [exact Hrun | ].
      split; [by rewrite Hhead | ].
      specialize (Htree eq_refl eq_refl). split; [exact Htree | ].
      unfold getCollection. rewrite Htree.
      vm_compute in Hcp. injection Hcp as <- _. reflexivity.
Defined.

(** ** Statistics of the registry *)

Lemma older_either (oldest current : Transaction) :
  (older oldest current = oldest ∨ older oldest current = current)
  ∧ (startTime (older oldest current) ≤ startTime oldest)%Z
  ∧ (startTime (older oldest current) ≤ startTime current)%Z.
Proof. unfold older. case_bool_decide; split_and!; auto; lia. Qed.

Lemma fold_older_min (rest : list Transaction) :
  ∀ first,
    fold_left older rest first ∈ first :: rest
    ∧ ∀ t, t ∈ first :: rest → (startTime (fold_left older rest first) ≤ startTime t)%Z.
Proof.
  induction rest as [ | a rest IH]; intros first; simpl.
  - split; [apply list_elem_of_here | ].
    intros t Ht. apply list_elem_of_singleton in Ht. subst. lia.
  - destruct (IH (older first a)) as [Hin Hmin].
    destruct (older_either first a) as (Hwhich & Hle1 & Hle2).
    split.
    + apply elem_of_cons in Hin as [-> | Hin].
      * destruct Hwhich as [-> | ->];
          [apply list_elem_of_here | apply list_elem_of_further, list_elem_of_here].
      * by do 2 apply list_elem_of_further.
    + intros t Ht.
      pose proof (Hmin (older first a) (list_elem_of_here _ _)) as Hself.
      apply elem_of_cons in Ht as [-> | Ht]; [lia | ].
      apply elem_of_cons in Ht as [-> | Ht]; [lia | ].
      apply Hmin. by apply list_elem_of_further.
Qed.

Lemma fold_operations (txs : list Transaction) :
  ∀ acc,
    fold_left (λ total tx, (total + length (operations tx))%nat) txs acc
    = (acc + sum_list_with (λ tx, length (operations tx)) txs)%nat.
Proof.
  induction txs as [ | t txs IH]; intros acc; simpl; [lia | ].
  rewrite IH. lia.
Qed.

(** X12. [getTransactionStats] counts the registered transactions and the
    operations in all their logs.  It reports no oldest transaction exactly
    when the registry is empty; otherwise the one it reports is registered
    and no registered transaction started before it. *)
Theorem oldest_transaction_is_minimal sys :
  stats_activeTransactions (getTransactionStats sys) = length (getActiveTransactions sys)
  ∧ totalOperations (getTransactionStats sys)
    = sum_list_with (λ tx, length (operations tx)) (getActiveTransactions sys)
  ∧ (oldestTransaction (getTransactionStats sys) = None ↔ activeTransactions sys = [])
  ∧ ∀ t,
      oldestTransaction (getTransactionStats sys) = Some t →
      t ∈ getActiveTransactions sys
      ∧ ∀ t', t' ∈ getActiveTransactions sys → (startTime t ≤ startTime t')%Z.
Proof.
  unfold getTransactionStats, getActiveTransactions.
  destruct (activeTransactions sys) as [ | [k first] rest] eqn:E; simpl.
  - split_and!; try done.
  - split_and!.
    + by rewrite length_fmap.
    + rewrite fold_operations. lia.
    + split; done.
    + intros t [= <-]. apply fold_older_min.
Qed.

(** ** Paging *)

Lemma slice_window {A : Type} (l : list A) (o n : Z) :
  (0 ≤ o)%Z → (0 ≤ n)%Z →
  slice l o (o + n) = take (Z.to_nat n) (drop (Z.to_nat o) l).
Proof.
  intros Ho Hn. unfold slice.
  rewrite !bool_decide_eq_false_2 by lia.
  destruct (decide (Z.of_nat (length l) < o)%Z) as [Hbig | Hsmall].
  - rewrite (drop_ge l (Z.to_nat o)) by lia.
    rewrite (drop_ge l (Z.to_nat (Z.min o (Z.of_nat (length l))))) by lia.
    by rewrite !take_nil.
  - replace (Z.min o (Z.of_nat (length l))) with o by lia.
    destruct (decide (o + n ≤ Z.of_nat (length l))%Z) as [Hfits | Hover].
    + f_equal. lia.
    + rewrite !take_ge; [done | rewrite length_drop; lia | rewrite length_drop; lia].
Qed.

Lemma slice_part {A : Type} (l : list A) (start stop : Z) :
  ∃ from count,
    slice l start stop = take count (drop from l)
    ∧ ((0 ≤ stop - start)%Z → (count ≤ Z.to_nat (stop - start))%nat).
Proof.
  unfold slice. eexists _, _. split; [reflexivity | ].
  intros Hle. repeat case_bool_decide; lia.
Qed.

(** X13. With a positive limit and an offset that is absent or
    non-negative, the page is the records from the offset on, at most the
    limit of them, and [hasMore] is true exactly when a record lies beyond
    the page. *)
Theorem paginate_window {A : Type} (records : list A) (n : Z) (off : QueryParam) :
  (0 < n)%Z →
  (0 ≤ or_default (parseInt off) 0)%Z →
  (paginate records (Given (Some n)) off).1
  = take (Z.to_nat n) (drop (Z.to_nat (or_default (parseInt off) 0)) records)
  ∧ total (paginate records (Given (Some n)) off).2 = length records
  ∧ offset (paginate records (Given (Some n)) off).2 = or_default (parseInt off) 0
  ∧ limit (paginate records (Given (Some n)) off).2 = n
  ∧ (hasMore (paginate records (Given (Some n)) off).2 = true
     ↔ drop (Z.to_nat (or_default (parseInt off) 0 + n)) records ≠ []).
Proof.
  intros Hn Ho. unfold paginate. simpl.
  rewrite (bool_decide_eq_false_2 (n = 0)%Z) by lia.
  split_and!; try done.
  - apply slice_window; lia.
  - rewrite bool_decide_eq_true. split.
    + intros Hlt Hnil.
      apply (f_equal length) in Hnil. rewrite length_drop in Hnil. simpl in Hnil. lia.
    + intros Hrest. destruct (decide (or_default (parseInt off) 0 + n
                                        < Z.of_nat (length records))%Z); [done | ].
      exfalso. apply Hrest. apply drop_ge. lia.
Qed.

Lemma paginate_window_witness :
  (paginate [1; 2; 3; 4; 5]%nat (Given (Some 2%Z)) (Given (Some 1%Z))).1 = [2; 3]%nat
  ∧ hasMore (paginate [1; 2; 3; 4; 5]%nat (Given (Some 2%Z)) (Given (Some 1%Z))).2 = true.
Proof.
  destruct (paginate_window [1; 2; 3; 4; 5]%nat 2 (Given (Some 1%Z)))
    as (Hpage & _ & _ & _ & Hmore); [reflexivity | discriminate | ].
  split; [exact Hpage | ]. apply Hmore. discriminate.
Defined.

(** X14. Whatever the two parameters hold, the page is a run of
    consecutive records of the list, in their order; the reported total is
    the length of the list; and when the reported limit is not negative the
    page has at most that many records.  Without parameters the page is the
    whole list, and so it is with a limit of [0] or one that is not a
    number, which give way to the total. *)
Theorem paginate_part {A : Type} (records : list A) (lim off : QueryParam) :
  (∃ before after, records = before ++ (paginate records lim off).1 ++ after)
  ∧ total (paginate records lim off).2 = length records
  ∧ ((0 ≤ limit (paginate records lim off).2)%Z →
     (length (paginate records lim off).1
      ≤ Z.to_nat (limit (paginate records lim off).2))%nat)
  ∧ (or_default (parseInt lim) (Z.of_nat (length records)) = Z.of_nat (length records) →
     or_default (parseInt off) 0 = 0%Z →
     (paginate records lim off).1 = records).
Proof.
  unfold paginate. simpl.
  set (o := or_default (parseInt off) 0).
  set (n := or_default (parseInt lim) (Z.of_nat (length records))).
  destruct (slice_part records o (o + n)) as (from & count & Hslice & Hcount).
  split_and!.
  - destruct (param_truthy lim || param_truthy off).
    + rewrite Hslice. exists (take from records), (drop count (drop from records)).
      by rewrite take_drop, take_drop.
    + exists [], []. by rewrite app_nil_r.
  - done.
  - intros Hn. destruct (param_truthy lim || param_truthy off) eqn:E.
    + rewrite Hslice, length_take. lia.
    + apply orb_false_iff in E as [Hlim _]. destruct lim; [ | done].
      unfold n. simpl. lia.
  - intros Hnall Hzero. destruct (param_truthy lim || param_truthy off); [ | done].
    rewrite Hnall, Hzero. rewrite (slice_window records 0 (Z.of_nat (length records)))
      by lia.
    simpl. apply take_ge. lia.
Qed.

Lemma paginate_part_witness :
  (paginate [1; 2; 3]%nat (Given (Some 0%Z)) Absent).1 = [1; 2; 3]%nat
  ∧ (length (paginate [1; 2; 3]%nat (Given (Some 2%Z)) (Given (Some (-2)%Z))).1 ≤ 2)%nat.
Proof.
  split.
  - apply (proj2 (proj2 (proj2 (paginate_part [1; 2; 3]%nat (Given (Some 0%Z)) Absent))));
      reflexivity.
  - apply (proj1 (proj2 (proj2 (paginate_part [1; 2; 3]%nat (Given (Some 2%Z))
                                  (Given (Some (-2)%Z)))))).
    discriminate.
Defined.

(** X15. Pages of a positive size requested at offsets [0], [n], [2n], ...
    are consecutive and disjoint: the first [m] pages, one after the other,
    are the first [m * n] records, so enough pages give back the whole
    list, each record once. *)
Theorem pages_cover {A : Type} (records : list A) (n : nat) (m : nat) :
  (0 < n)%nat →
  concat ((λ k : nat,
             (paginate records (Given (Some (Z.of_nat n)))
                (Given (Some (Z.of_nat (k * n))))).1) <$> seq 0 m)
  = take (m * n) records
  ∧ ((length records ≤ m * n)%nat →
     concat ((λ k : nat,
                (paginate records (Given (Some (Z.of_nat n)))
                   (Given (Some (Z.of_nat (k * n))))).1) <$> seq 0 m)
     = records).
Proof.
  intros Hn.
  assert (∀ k : nat,
            (paginate records (Given (Some (Z.of_nat n)))
               (Given (Some (Z.of_nat (k * n))))).1
            = take n (drop (k * n) records)) as Hpage.
  { intros k. unfold paginate. simpl.
    rewrite (bool_decide_eq_false_2 (Z.of_nat n = 0)%Z) by lia.
    assert ((if bool_decide (Z.of_nat (k * n) = 0)%Z then 0%Z else Z.of_nat (k * n))
            = Z.of_nat (k * n)) as -> by (case_bool_decide; lia).
    rewrite slice_window by lia. by rewrite !Nat2Z.id. }
  assert (concat ((λ k : nat,
                     (paginate records (Given (Some (Z.of_nat n)))
                        (Given (Some (Z.of_nat (k * n))))).1) <$> seq 0 m)
          = take (m * n) records) as Hall.
  { set (page := λ k : nat,
                    (paginate records (Given (Some (Z.of_nat n)))
                       (Given (Some (Z.of_nat (k * n))))).1).
    assert (∀ k, page k = take n (drop (k * n) records)) as Hpage' by apply Hpage.
    clearbody page. induction m as [ | m IH]; [done | ].
    rewrite seq_S, fmap_app, concat_app, IH. simpl.
    rewrite app_nil_r, Hpage', take_take_drop. f_equal. lia. }
  split; [exact Hall | ].
  intros Hlen. rewrite Hall. by apply take_ge.
Qed.

Lemma pages_cover_witness :
  concat ((λ k : nat,
             (paginate [1; 2; 3; 4; 5]%nat (Given (Some (Z.of_nat 2)))
                (Given (Some (Z.of_nat (k * 2))))).1) <$> seq 0 3)
  = [1; 2; 3; 4; 5]%nat.
Proof.
  apply (proj2 (pages_cover [1; 2; 3; 4; 5]%nat 2 3 ltac:(lia))). simpl. lia.
Defined.

Lemma oldest_transaction_is_minimal_witness :
  ∃ t,
    oldestTransaction (getTransactionStats system_with_T1_T2) = Some t
    ∧ t ∈ getActiveTransactions system_with_T1_T2.
Proof.
  eexists. split; [reflexivity | ].
  apply (proj2 (proj2 (proj2 (oldest_transaction_is_minimal system_with_T1_T2)))).
  reflexivity.
Defined.

(** ** Names of collections *)

Lemma string_app_cons (x : Ascii.ascii) (a b : string) :
  String x a +:+ b = String x (a +:+ b).
Proof. reflexivity. Qed.

Lemma string_app_nil_r (a : string) : a +:+ EmptyString = a.
Proof.
  induction a as [ | x a IH]; [done | ]. by rewrite string_app_cons, IH.
Qed.

Lemma string_app_assoc (a b c : string) : (a +:+ b) +:+ c = a +:+ (b +:+ c).
Proof.
  induction a as [ | x a IH]; [done | ]. by rewrite !string_app_cons, IH.
Qed.

Lemma endsWith_app (s suffix : string) : endsWith (s +:+ suffix) suffix = true.
Proof.
  induction s as [ | x s IH].
  - change (EmptyString +:+ suffix) with suffix.
    destruct suffix as [ | y suffix]; [done | ].
    simpl. by rewrite bool_decide_eq_true_2.
  - rewrite string_app_cons. simpl. rewrite IH. apply orb_true_r.
Qed.

Lemma starts_with_json (s : string) :
  starts_with s ".json" = true → ∃ rest, s = ".json" +:+ rest.
Proof.
  simpl.
  repeat (destruct s as [ | ? s]; [done | ];
          intros [<-%bool_decide_eq_true H]%andb_true_iff; revert H).
  intros _. by exists s.
Qed.

Lemma replace_first_json (before rest : string) :
  ¬ includes before ".json" →
  replace_first ".json" EmptyString (before +:+ ".json" +:+ rest) = before +:+ rest.
Proof.
  induction before as [ | x before IH]; intros Hfree; [by vm_compute | ].
  assert (¬ includes before ".json") as Hfree'.
  { intros (b & a & ->). apply Hfree. by exists (String x b), a. }
  rewrite (string_app_cons x before (".json" +:+ rest)).
  rewrite (string_app_cons x before rest).
  change (replace_first ".json" EmptyString (String x (before +:+ ".json" +:+ rest)))
    with (if starts_with (String x (before +:+ ".json" +:+ rest)) ".json"
          then EmptyString +:+ string_drop 5 (String x (before +:+ ".json" +:+ rest))
          else String x (replace_first ".json" EmptyString
                           (before +:+ ".json" +:+ rest))).
  destruct (starts_with (String x (before +:+ ".json" +:+ rest)) ".json") eqn:E.
  - exfalso. apply starts_with_json in E as [tail Htail].
    rewrite !string_app_cons in Htail. injection Htail as -> Htail.
    destruct before as [ | x1 before]; [done | ].
    rewrite !string_app_cons in Htail. injection Htail as -> Htail.
    destruct before as [ | x2 before]; [done | ].
    rewrite !string_app_cons in Htail. injection Htail as -> Htail.
    destruct before as [ | x3 before]; [done | ].
    rewrite !string_app_cons in Htail. injection Htail as -> Htail.
    destruct before as [ | x4 before]; [done | ].
    rewrite !string_app_cons in Htail. injection Htail as -> Htail.
    apply Hfree. by exists EmptyString, before.
  - by rewrite IH.
Qed.

(** X16. [getCollections] keeps the directory entries that end in [.json]
    and removes the first [.json] from each, not the last.  A collection
    whose name is a plain file name (no path separator) that does not
    contain [.json] is therefore listed under its name as soon as it has a
    file, for instance after a [createRecord] that returned; a collection
    with the plain file name [before.json<after>] is listed as
    [before<after>.json]. *)
Theorem listed_collections :
  (∀ entries name,
     name ∈ collection_names entries →
     ∃ file, file ∈ entries ∧ endsWith file ".json" = true
             ∧ name = replace_first ".json" EmptyString file)
  ∧ (∀ st collection,
       plain_name collection = true →
       ¬ includes collection ".json" →
       is_Some (files (worktree st) !! collection) →
       collection ∈ getCollections st)
  ∧ (∀ st collection data env st' r,
       createRecord st collection data env = (st', Ok r) →
       plain_name collection = true →
       ¬ includes collection ".json" →
       collection ∈ getCollections st')
  ∧ (∀ st before after,
       plain_name (before +:+ ".json" +:+ after) = true →
       ¬ includes before ".json" →
       is_Some (files (worktree st) !! (before +:+ ".json" +:+ after)) →
       before +:+ after +:+ ".json" ∈ getCollections st).
Proof.
  assert (∀ st collection before rest,
            ¬ includes before ".json" →
            is_Some (files (worktree st) !! collection) →
            collection +:+ ".json" = before +:+ ".json" +:+ rest →
            before +:+ rest ∈ getCollections st) as Hlisted.
  { intros st collection before rest Hfree [records Hfile] Hname.
    unfold getCollections, collection_names, data_entries.
    apply list_elem_of_fmap. exists (collection +:+ ".json"). split.
    - rewrite Hname. symmetry. by apply replace_first_json.
    - apply list_elem_of_filter. split; [apply endsWith_app | ].
      apply list_elem_of_fmap. exists collection. split; [done | ].
      apply list_elem_of_fmap. exists (collection, records). split; [done | ].
      by apply elem_of_map_to_list. }
  split_and!.
  - intros entries name Hname. unfold collection_names in Hname.
    apply list_elem_of_fmap in Hname as (file & -> & Hfile).
    apply list_elem_of_filter in Hfile as [Hends Hfile]. by exists file.
  - intros st collection _ Hfree Hfile.
    rewrite <- (string_app_nil_r collection) at 1.
    by apply (Hlisted st collection collection EmptyString).
  - intros st collection data env st' r Hreturned _ Hfree.
    rewrite <- (string_app_nil_r collection) at 1.
    apply (Hlisted _ collection collection EmptyString); [done | | done].
    unfold createRecord in Hreturned. injection Hreturned as <- _.
    rewrite worktree_commitChanges, files_saveCollection.
    rewrite lookup_insert_eq. by eexists.
  - intros st before after _ Hfree Hfile.
    apply (Hlisted st (before +:+ ".json" +:+ after) before (after +:+ ".json"));
      [done | done | ].
    by rewrite !string_app_assoc.
Qed.

Lemma listed_collections_witness :
  "users" ∈ getCollections (createRecord sample_store "users" (name_only "A") sample_env).1.
Proof.
  apply (proj1 (proj2 (proj2 listed_collections))
           sample_store "users" (name_only "A") sample_env _
           (<["updatedAt" := VStr (iso_now sample_env)]>
              (<["createdAt" := VStr (iso_now sample_env)]>
                 (<["id" := VStr (generateId sample_env)]> (name_only "A"))))).
  - reflexivity.
  - reflexivity.
  - intros (before & after & Heq).
    repeat (destruct before as [ | ? before]; [discriminate Heq | ];
            simpl in Heq; injection Heq as _ Heq).
    destruct before; discriminate Heq.
Defined.

(** ** The log of an open transaction *)

Lemma step_log sys a id t :
  leaves_open id a = true →
  Map_get (activeTransactions sys) id = Some t →
  status t = Active →
  ∃ t' added,
    Map_get (activeTransactions (step sys a)) id = Some t'
    ∧ status t' = Active
    ∧ checkpointHash t' = checkpointHash t
    ∧ startTime t' = startTime t
    ∧ operations t' = operations t ++ added
    ∧ length added = (if executes_in id a then 1 else 0)%nat.
Proof.
  intros Hleaves Hget Hactive.
  assert (∃ t' added,
            Map_get (activeTransactions sys) id = Some t'
            ∧ status t' = Active
            ∧ checkpointHash t' = checkpointHash t
            ∧ startTime t' = startTime t
            ∧ operations t' = operations t ++ added
            ∧ length added = 0%nat) as Hsame.
  { exists t, []. by rewrite app_nil_r. }
  destruct a as
    [ collection data env | collection rid data env | collection rid env
    | commitHash fault | transactionId env | transactionId kind arguments env
    | transactionId env | transactionId env | envs | maxAgeMinutes now envs ];
    simpl in *; try done.
  - pose proof (beginTransaction_cases sys transactionId env) as Hcases.
    simpl in Hcases.
    destruct Hcases as [[_ ->] | [(_ & e & _ & ->) | (Hnew & _ & _ & ->)]]; try done.
    simpl. rewrite Map_get_set_ne; [done | ]. intros Heq. congruence.
  - case_bool_decide as Hid.
    + subst transactionId.
      destruct (executeInTransaction_active sys id kind arguments env t Hget Hactive)
        as (entry & -> & _).
      simpl. rewrite Map_get_set_eq. by exists (push_operation t entry), [entry].
    + destruct (Map_get (activeTransactions sys) transactionId) as [t0 | ] eqn:Hget0.
      * destruct (decide (status t0 = Active)) as [Hactive0 | Hother].
        -- destruct (executeInTransaction_active sys transactionId kind arguments env
                       t0 Hget0 Hactive0) as (entry & -> & _).
           simpl. by rewrite Map_get_set_ne.
        -- destruct (executeInTransaction_rejected sys transactionId kind arguments env)
             as [e ->]; [ | done]. right. by exists t0.
      * destruct (executeInTransaction_rejected sys transactionId kind arguments env)
          as [e ->]; [by left | done].
  - apply negb_true_iff, bool_decide_eq_false in Hleaves.
    destruct (commitTransaction_cases sys transactionId env)
      as [(e & -> & _) | [(t0 & e & _ & _ & _ & ->) | (t0 & _ & _ & ->)]]; simpl.
    + done.
    + by rewrite Map_get_set_ne.
    + by rewrite Map_get_delete_ne.
  - apply negb_true_iff, bool_decide_eq_false in Hleaves.
    destruct (rollbackTransaction_cases sys transactionId env)
      as [(t0 & c & rest & _ & _ & _ & _ & _ & ->) | (e & -> & _)]; simpl.
    + by rewrite Map_get_delete_ne.
    + done.
Qed.

(** X17. While a transaction is open (no commit or rollback of it, no
    sweep), whatever else is called, its checkpoint and start time never
    change and its log only grows at the end: it gains exactly one entry for
    each [executeInTransaction] on it, successful or failed, and none
    otherwise. *)
Theorem log_grows_by_executes trace :
  ∀ sys id t,
    Map_get (activeTransactions sys) id = Some t →
    status t = Active →
    forallb (leaves_open id) trace = true →
    ∃ t' added,
      Map_get (activeTransactions (run sys trace)) id = Some t'
      ∧ status t' = Active
      ∧ checkpointHash t' = checkpointHash t
      ∧ startTime t' = startTime t
      ∧ operations t' = operations t ++ added
      ∧ length added = length (filter (λ a, executes_in id a = true) trace).
Proof.
  induction trace as [ | a trace IH]; intros sys id t Hget Hactive Hall.
  - exists t, []. by rewrite app_nil_r.
  - simpl in Hall. apply andb_true_iff in Hall as [Ha Hall].
    destruct (step_log sys a id t Ha Hget Hactive)
      as (t1 & added1 & Hget1 & Hactive1 & Hcp1 & Hstart1 & Hops1 & Hlen1).
    destruct (IH (step sys a) id t1 Hget1 Hactive1 Hall)
      as (t2 & added2 & Hget2 & Hactive2 & Hcp2 & Hstart2 & Hops2 & Hlen2).
    exists t2, (added1 ++ added2). simpl. split_and!; try done; try congruence.
    + rewrite Hops2, Hops1. by rewrite app_assoc.
    + rewrite length_app, Hlen1, Hlen2, filter_cons.
      destruct (executes_in id a); case_decide; try done; simpl; lia.
Qed.

Lemma log_grows_by_executes_witness :
  ∃ t',
    Map_get (activeTransactions
               (run (beginTransaction system_before_T1 (Some "T1") sample_tx_env).1
                  trace_in_T1)) "T1"
    = Some t'
    ∧ length (operations t') = 2%nat.
Proof.
  destruct (log_grows_by_executes trace_in_T1
              (beginTransaction system_before_T1 (Some "T1") sample_tx_env).1 "T1"
              (default no_transaction
                 (Map_get (activeTransactions
                             (beginTransaction system_before_T1 (Some "T1")
                                sample_tx_env).1) "T1")))
    as (t' & added & Hget & _ & _ & _ & Hops & Hlen).
  - reflexivity.
  - reflexivity.
  - reflexivity.
  - exists t'. split; [exact Hget | ]. rewrite Hops, length_app, Hlen. reflexivity.
Defined.
